(** * The denominator graph of the 'chain' models (chain/chain-den-graph.cc)

    A shallow embedding of [DenominatorGraph::SetTransitions],
    [DenominatorGraph::SetInitialProbs], [NumStatesThatCanReach] and
    [DenominatorGraph::ComputeSpecialState], and the properties of the
    flattened transition tables, of the initial-probability estimate and of
    the choice of the special state.

    Conventions of the embedding.
    - [double] and [BaseFloat] values are IEEE 754 numbers in the sense of
      the standard library's [SpecFloat]: double arithmetic is binary64
      ([prec = 53], [emax = 1024]), a [BaseFloat] is a binary32 number
      ([prec = 24], [emax = 128]), the default of the build.  The [exp] of
      the C library is a parameter of the development.
    - State indices ([int32], never negative in a well-formed automaton) are
      [nat]; labels and pdf-ids are [Z]; the offsets of the tables are
      [int32] values obtained by [static_cast<int32>] from a [size_t], with
      the wrap-around written out.
    - [KALDI_ASSERT] and [KALDI_ERR] end the computation; they are the
      failure outcomes of the [result] type.
    - A vector is a list; where the source would index a vector out of
      range (an automaton with a destination that is not a state) the
      lists are left unchanged, and the properties are stated for
      well-formed automata ([fst_wf]). *)

From Stdlib Require Import ZArith Lia Bool.
From Stdlib Require Import SpecFloat PrimFloat FloatOps.
From stdpp Require Import base relations list.

Local Open Scope Z_scope.

(** ** Floating point *)

Module Flt.

Definition prec : Z := 53.
Definition emax : Z := 1024.

Definition add : spec_float -> spec_float -> spec_float := SFadd prec emax.
Definition mul : spec_float -> spec_float -> spec_float := SFmul prec emax.
Definition div : spec_float -> spec_float -> spec_float := SFdiv prec emax.
Definition opp : spec_float -> spec_float := SFopp.
Definition ltb : spec_float -> spec_float -> bool := SFltb.
Definition leb : spec_float -> spec_float -> bool := SFleb.

Definition zero : spec_float := S754_zero false.
Definition one : spec_float := Eval vm_compute in Prim2SF 1%float.
Definition hundred : spec_float := Eval vm_compute in Prim2SF 100%float.
Definition infinity : spec_float := S754_infinity false.
Definition nan : spec_float := S754_nan.

(** [int32 -> double]; exact, every [int32] is a binary64 number. *)
Definition of_Z (n : Z) : spec_float := binary_normalize prec emax n 0 false.

(** [double -> float]: round to nearest even in binary32. *)
Definition to_single (x : spec_float) : spec_float :=
  match x with
  | S754_finite s m e => binary_round 24 128 s m e
  | _ => x
  end.

End Flt.

Abbreviation double := spec_float (only parsing).
Abbreviation BaseFloat := spec_float (only parsing).

(** ** Outcomes of a computation that may hit [KALDI_ASSERT] or [KALDI_ERR]

    [OutOfFuel] is the outcome of a loop of the model that reaches the bound
    on its iterations; [NumStatesThatCanReach_returns] shows that the search
    loop, the only one with a bound, never does. *)

Inductive result (A : Type) : Type :=
| Ok (a : A)
| AssertFailed
| KaldiErr
| OutOfFuel.
Arguments Ok {A} a.
Arguments AssertFailed {A}.
Arguments KaldiErr {A}.
Arguments OutOfFuel {A}.

#[global] Instance result_ret : MRet result := fun _ a => Ok a.
#[global] Instance result_bind : MBind result := fun _ _ f m =>
  match m with
  | Ok a => f a
  | AssertFailed => AssertFailed
  | KaldiErr => KaldiErr
  | OutOfFuel => OutOfFuel
  end.

Definition KALDI_ASSERT (cond : bool) : result unit :=
  if cond then Ok tt else AssertFailed.

(** A loop body run over the elements of a list, stopping at the first
    failure. *)
Fixpoint foldM {A B} (f : B -> A -> result B) (l : list A) (b : B) : result B :=
  match l with
  | [] => Ok b
  | a :: l' => b' ← f b a; foldM f l' b'
  end.

(** ** The input automaton (fst::StdVectorFst) *)

Record StdArc := mkArc {
  ilabel : Z;
  olabel : Z;
  weight : BaseFloat;       (* arc.weight.Value() *)
  nextstate : nat
}.

Record FstState := mkState {
  final : BaseFloat;        (* fst.Final(s).Value() *)
  arcs : list StdArc
}.

Record StdVectorFst := mkFst {
  Start : nat;
  states : list FstState
}.

Definition NumStates (fst : StdVectorFst) : nat := length (states fst).

Definition Final (fst : StdVectorFst) (s : nat) : BaseFloat :=
  match states fst !! s with
  | Some st => final st
  | None => Flt.infinity
  end.

(** The arcs that [ArcIterator(fst, s)] visits, in order. *)
Definition Arcs (fst : StdVectorFst) (s : nat) : list StdArc :=
  match states fst !! s with
  | Some st => arcs st
  | None => []
  end.

(** Every arc of the automaton with its source state, in the order of the
    two nested loops over states and arcs. *)
Definition all_arcs (fst : StdVectorFst) : list (nat * StdArc) :=
  flat_map (fun s => map (pair s) (Arcs fst s)) (seq 0 (NumStates fst)).

Definition num_arcs (fst : StdVectorFst) : nat := length (all_arcs fst).

(** Every destination and the start state are states of the automaton.
    Outside this the source indexes its vectors out of range. *)
Definition fst_wf (fst : StdVectorFst) : Prop :=
  (Start fst < NumStates fst)%nat /\
  forall s a, a ∈ Arcs fst s -> (nextstate a < NumStates fst)%nat.

Definition fst_wfb (fst : StdVectorFst) : bool :=
  bool_decide (Start fst < NumStates fst)%nat &&
  forallb (fun x => bool_decide (nextstate x.2 < NumStates fst)%nat) (all_arcs fst).

(** ** The tables *)

Record DenominatorGraphTransition := mkTransition {
  transition_prob : BaseFloat;
  pdf_id : Z;
  hmm_state : nat
}.

Definition Int32Pair : Type := Z * Z.

Definition wrap32 (z : Z) : Z := (z + 2 ^ 31) mod 2 ^ 32 - 2 ^ 31.

(** [static_cast<int32>(v.size())] *)
Definition size_to_int32 (n : nat) : Z := wrap32 (Z.of_nat n).

(** [v[i].push_back(x)].  The source indexes [v] unchecked: out of range
    its behaviour is undefined, and the update below, which leaves [v] as
    it is there, stands for the source on well-formed automata only
    ([fst_wf], which puts every index used in range). *)
Definition push_back {A} (i : nat) (x : A) (v : list (list A)) : list (list A) :=
  alter (fun b => b ++ [x]) i v.

(** ** NumStatesThatCanReach *)

(** [reverse_transitions[t]] lists the sources of the arcs into [t], in the
    order in which the two nested loops meet them. *)
Definition reverse_transitions (fst : StdVectorFst) : list (list nat) :=
  let num_states := NumStates fst in
  fold_left
    (fun rt s => fold_left (fun rt a => push_back (nextstate a) s rt) (Arcs fst s) rt)
    (seq 0 num_states) (replicate num_states []).

(** The variables of the search.  [queue] is used as a stack: its back is
    the head of the list. *)
Record search := mkSearch {
  queue : list nat;
  can_reach : list bool;
  num_states_can_reach : nat
}.

(** The body of the loop over the predecessors of the popped state. *)
Definition visit (st : search) (prev_state : nat) : search :=
  if negb (default false (can_reach st !! prev_state)) then
    {| queue := prev_state :: queue st;
       can_reach := <[prev_state := true]> (can_reach st);
       num_states_can_reach := S (num_states_can_reach st) |}
  else st.

(** [while (!queue.empty())]; [fuel] bounds the number of iterations. *)
Fixpoint search_loop (fuel : nat) (rt : list (list nat)) (st : search) : result search :=
  match queue st with
  | [] => Ok st
  | state :: rest =>
      match fuel with
      | O => OutOfFuel
      | S fuel' =>
          search_loop fuel' rt
            (fold_left visit (default [] (rt !! state))
               {| queue := rest;
                  can_reach := can_reach st;
                  num_states_can_reach := num_states_can_reach st |})
      end
  end.

(** Every state enters the queue at most once, so [num_states] iterations
    are enough; [NumStatesThatCanReach_returns] proves it. *)
Definition NumStatesThatCanReach (fst : StdVectorFst) (dest_state : nat) : result nat :=
  let num_states := NumStates fst in
  _ ← KALDI_ASSERT (bool_decide (dest_state < num_states)%nat);
  let st := {| queue := [dest_state];
               can_reach := <[dest_state := true]> (replicate num_states false);
               num_states_can_reach := 1 |} in
  st ← search_loop num_states (reverse_transitions fst) st;
  _ ← KALDI_ASSERT (bool_decide (1 <= num_states_can_reach st)%nat
                    && bool_decide (num_states_can_reach st <= num_states)%nat);
  Ok (num_states_can_reach st).

(** ** DenominatorGraph::ComputeSpecialState *)

(** [operator<] of [std::pair<BaseFloat, int32>]. *)
Definition pair_ltb (a b : BaseFloat * nat) : bool :=
  Flt.ltb a.1 b.1 || (negb (Flt.ltb b.1 a.1) && (a.2 <? b.2)%nat).

Fixpoint insert_sorted (x : BaseFloat * nat) (l : list (BaseFloat * nat))
  : list (BaseFloat * nat) :=
  match l with
  | [] => [x]
  | y :: l' => if pair_ltb x y then x :: y :: l' else y :: insert_sorted x l'
  end.

(** [std::sort(pairs.begin(), pairs.end())].  Pairs that [operator<] does not
    order have the same [second] (when no [first] is a NaN), and only
    [second] is read afterwards, so any sorting algorithm stands for it. *)
Definition sort (l : list (BaseFloat * nat)) : list (BaseFloat * nat) :=
  foldr insert_sorted [] l.

(** [pairs] before sorting: [num_states] value-initialised pairs from the
    constructor, then one pushed pair per state. *)
Definition candidate_pairs (initial_probs : list BaseFloat) : list (BaseFloat * nat) :=
  let num_states := length initial_probs in
  fold_left (fun pairs i => pairs ++ [(Flt.opp (default Flt.zero (initial_probs !! i)), i)])
            (seq 0 num_states) (replicate num_states (Flt.zero, 0%nat)).

(** [int32 min_states_can_reach = 0.75 * num_states]: the product is exact
    in binary64 for an [int32] operand and the conversion truncates. *)
Definition min_states_can_reach (num_states : nat) : nat := (3 * num_states / 4)%nat.

(** The candidates [pairs[0] ... pairs[num_states - 1]] after sorting. *)
Definition scanned (initial_probs : list BaseFloat) : list nat :=
  (take (length initial_probs) (sort (candidate_pairs initial_probs))).*2.

(** The scan loop over the candidates still to examine. *)
Fixpoint scan (fst : StdVectorFst) (threshold : nat) (cands : list nat) : result nat :=
  match cands with
  | [] => KaldiErr
  | state :: rest =>
      n ← NumStatesThatCanReach fst state;
      if (n <? threshold)%nat
      then scan fst threshold rest      (* KALDI_WARN: rejected *)
      else Ok state
  end.

Definition ComputeSpecialState (fst : StdVectorFst) (initial_probs : list BaseFloat)
  : result nat :=
  let num_states := length initial_probs in
  scan fst (min_states_can_reach num_states) (scanned initial_probs).

(** ** Vector operations of the matrix library *)

Module Vec.

(** Modelled from the spec: [Vector<double> v(dim)] is filled with zeros. *)
Definition zeros (dim : nat) : list double := replicate dim Flt.zero.

Definition get (v : list double) (i : nat) : double := default Flt.zero (v !! i).

(** Modelled from the spec: [Sum] is the total of the entries. *)
Definition Sum (v : list double) : double := fold_left Flt.add v Flt.zero.

(** Modelled from the spec: [Scale] multiplies every entry by [alpha]. *)
Definition Scale (alpha : double) (v : list double) : list double :=
  map (Flt.mul alpha) v.

(** Modelled from the spec: [AddVec] adds [alpha * x] to the vector. *)
Definition AddVec (alpha : double) (x v : list double) : list double :=
  zip_with (fun vi xi => Flt.add vi (Flt.mul alpha xi)) v x.

Definition SetZero (v : list double) : list double := zeros (length v).

End Vec.

Section WithExp.

(** The [exp] of the C library, applied to a negated weight. *)
Variable exp : spec_float -> spec_float.

(** *** DenominatorGraph::SetTransitions *)

Definition buckets : Type :=
  list (list DenominatorGraphTransition) * list (list DenominatorGraphTransition).

(** The body of the arc loop, for the arc [arc] out of state [s]. *)
Definition transitions_arc (num_pdfs : Z) (s : nat) (acc : buckets) (arc : StdArc)
  : result buckets :=
  let '(transitions_out, transitions_in) := acc in
  let transition :=
    {| transition_prob := Flt.to_single (exp (Flt.opp (weight arc)));
       pdf_id := ilabel arc - 1;
       hmm_state := nextstate arc |} in
  _ ← KALDI_ASSERT ((0 <=? pdf_id transition) && (pdf_id transition <? num_pdfs));
  let transitions_out := push_back s transition transitions_out in
  (* now the reverse transition. *)
  let transition :=
    {| transition_prob := transition_prob transition;
       pdf_id := pdf_id transition;
       hmm_state := s |} in
  Ok (transitions_out, push_back (nextstate arc) transition transitions_in).

Definition transitions_state (fst : StdVectorFst) (num_pdfs : Z)
    (acc : buckets) (s : nat) : result buckets :=
  foldM (transitions_arc num_pdfs s) (Arcs fst s) acc.

Definition collect_transitions (fst : StdVectorFst) (num_pdfs : Z) : result buckets :=
  let num_states := NumStates fst in
  foldM (transitions_state fst num_pdfs) (seq 0 num_states)
        (replicate num_states [], replicate num_states []).

(** The two loops that lay the buckets out in [transitions]; [bs] are the
    buckets of the states still to come. *)
Fixpoint flatten (bs : list (list DenominatorGraphTransition))
    (transitions : list DenominatorGraphTransition)
  : list Int32Pair * list DenominatorGraphTransition :=
  match bs with
  | [] => ([], transitions)
  | b :: bs' =>
      let first := size_to_int32 (length transitions) in
      let transitions := transitions ++ b in
      let second := size_to_int32 (length transitions) in
      let '(ranges, transitions) := flatten bs' transitions in
      ((first, second) :: ranges, transitions)
  end.

Record Tables := mkTables {
  forward_transitions_ : list Int32Pair;
  backward_transitions_ : list Int32Pair;
  transitions_ : list DenominatorGraphTransition
}.

Definition SetTransitions (fst : StdVectorFst) (num_pdfs : Z) : result Tables :=
  '(transitions_out, transitions_in) ← collect_transitions fst num_pdfs;
  let '(forward_transitions, transitions) := flatten transitions_out [] in
  let '(backward_transitions, transitions) := flatten transitions_in transitions in
  Ok {| forward_transitions_ := forward_transitions;
        backward_transitions_ := backward_transitions;
        transitions_ := transitions |}.

(** *** DenominatorGraph::SetInitialProbs *)

Definition num_iters : Z := 100.

(** [tot_prob] of state [s] when the assertion is reached. *)
Definition tot_prob (fst : StdVectorFst) (s : nat) : double :=
  fold_left (fun tot arc => Flt.add tot (exp (Flt.opp (weight arc))))
            (Arcs fst s) (exp (Flt.opp (Final fst s))).

Definition normalizing_state (fst : StdVectorFst) (normalizing_factor : list double)
    (s : nat) : result (list double) :=
  let tot := tot_prob fst s in
  _ ← KALDI_ASSERT (Flt.ltb Flt.zero tot && Flt.ltb tot Flt.hundred);
  Ok (<[s := Flt.div Flt.one tot]> normalizing_factor).

Definition normalizing_factors (fst : StdVectorFst) : result (list double) :=
  let num_states := NumStates fst in
  foldM (normalizing_state fst) (seq 0 num_states) (Vec.zeros num_states).

(** [next_prob(arc.nextstate) += prob * exp(-arc.weight.Value())] *)
Definition propagate_arc (prob : double) (next_prob : list double) (arc : StdArc)
  : list double :=
  alter (fun x => Flt.add x (Flt.mul prob (exp (Flt.opp (weight arc)))))
        (nextstate arc) next_prob.

Definition propagate_state (fst : StdVectorFst) (normalizing_factor cur_prob : list double)
    (next_prob : list double) (s : nat) : list double :=
  let prob := Flt.mul (Vec.get cur_prob s) (Vec.get normalizing_factor s) in
  fold_left (propagate_arc prob) (Arcs fst s) next_prob.

(** One iteration of the loop over [iter], on [(cur_prob, next_prob, avg_prob)]. *)
Definition propagate (fst : StdVectorFst) (normalizing_factor : list double)
    (st : list double * list double * list double)
  : list double * list double * list double :=
  let '(cur_prob, next_prob, avg_prob) := st in
  let next_prob :=
    fold_left (propagate_state fst normalizing_factor cur_prob)
              (seq 0 (NumStates fst)) next_prob in
  let '(cur_prob, next_prob) := (next_prob, cur_prob) in      (* Swap *)
  let next_prob := Vec.SetZero next_prob in
  let cur_prob := Vec.Scale (Flt.div Flt.one (Vec.Sum cur_prob)) cur_prob in
  let avg_prob := Vec.AddVec (Flt.div Flt.one (Flt.of_Z num_iters)) cur_prob avg_prob in
  (cur_prob, next_prob, avg_prob).

(** The running average after the [num_iters] iterations. *)
Definition average_probs (fst : StdVectorFst) (normalizing_factor : list double)
  : list double :=
  let num_states := NumStates fst in
  let cur_prob := <[Start fst := Flt.one]> (Vec.zeros num_states) in
  (Nat.iter (Z.to_nat num_iters) (propagate fst normalizing_factor)
            (cur_prob, Vec.zeros num_states, Vec.zeros num_states)).2.

(** Returns [(initial_probs_, special_hmm_state_)]. *)
Definition SetInitialProbs (fst : StdVectorFst) : result (list BaseFloat * nat) :=
  normalizing_factor ← normalizing_factors fst;
  let avg_prob := average_probs fst normalizing_factor in
  let avg_prob_float := map Flt.to_single avg_prob in
  special ← ComputeSpecialState fst avg_prob_float;
  Ok (avg_prob_float, special).

(** *** The constructor *)

Record DenominatorGraphObj := mkGraph {
  tables : Tables;
  initial_probs_ : list BaseFloat;
  special_hmm_state_ : nat
}.

Definition DenominatorGraph (fst : StdVectorFst) (num_pdfs : Z) : result DenominatorGraphObj :=
  t ← SetTransitions fst num_pdfs;
  '(probs, special) ← SetInitialProbs fst;
  Ok {| tables := t; initial_probs_ := probs; special_hmm_state_ := special |}.

End WithExp.

(** ** What the tables are to contain *)

(** The arcs into state [d], each with its source. *)
Definition in_arcs (fst : StdVectorFst) (d : nat) : list (nat * StdArc) :=
  List.filter (fun x => nextstate x.2 =? d)%nat (all_arcs fst).

(** Every label is positive and its pdf-id is below [num_pdfs]. *)
Definition labels_valid (fst : StdVectorFst) (num_pdfs : Z) : Prop :=
  forall s a, a ∈ Arcs fst s -> 0 <= ilabel a - 1 < num_pdfs.

Definition labels_validb (fst : StdVectorFst) (num_pdfs : Z) : bool :=
  forallb (fun x => (0 <=? ilabel x.2 - 1) && (ilabel x.2 - 1 <? num_pdfs)) (all_arcs fst).

Definition INT32_MAX : Z := 2 ^ 31 - 1.

(** The records of a half-open range of offsets. *)
Definition slice {A} (r : Int32Pair) (l : list A) : list A :=
  take (Z.to_nat (r.2 - r.1)) (drop (Z.to_nat r.1) l).

(** [ranges] are half-open ranges [begin <= end], each beginning where the
    one before ends, the first at [lo] and the last ending at [hi]. *)
Fixpoint tiles (ranges : list Int32Pair) (lo hi : Z) : Prop :=
  match ranges with
  | [] => lo = hi
  | r :: ranges' => r.1 = lo /\ r.1 <= r.2 /\ tiles ranges' r.2 hi
  end.

Section Records.

Variable exp : spec_float -> spec_float.

Definition forward_record (a : StdArc) : DenominatorGraphTransition :=
  {| transition_prob := Flt.to_single (exp (Flt.opp (weight a)));
     pdf_id := ilabel a - 1;
     hmm_state := nextstate a |}.

(** The record of the same arc seen from its destination: the unit and
    the probability of the forward record, and the source of the arc. *)
Definition backward_record (x : nat * StdArc) : DenominatorGraphTransition :=
  {| transition_prob := transition_prob (forward_record x.2);
     pdf_id := pdf_id (forward_record x.2);
     hmm_state := x.1 |}.

Definition forward_bucket (fst : StdVectorFst) (s : nat) : list DenominatorGraphTransition :=
  map forward_record (Arcs fst s).

Definition backward_bucket (fst : StdVectorFst) (d : nat) : list DenominatorGraphTransition :=
  map backward_record (in_arcs fst d).

End Records.

(** ** Definitions used in the statements and in the proofs *)

(** The elements of [l] whose key is [i]. *)
Definition keyed {X} (key : X -> nat) (i : nat) (l : list X) : list X :=
  List.filter (fun x => key x =? i)%nat l.

(** The condition of the assertion on the pdf-id. *)
Definition label_ok (num_pdfs : Z) (a : StdArc) : bool :=
  (0 <=? ilabel a - 1) && (ilabel a - 1 <? num_pdfs).

(** The two [push_back] of the loop body, without the assertion. *)
Definition push_both (exp : spec_float -> spec_float) (acc : buckets) (x : nat * StdArc)
  : buckets :=
  (push_back x.1 (forward_record exp x.2) acc.1,
   push_back (nextstate x.2) (backward_record exp x) acc.2).

(** The condition of the assertion on [tot_prob]. *)
Definition mass_ok (tot : double) : bool :=
  Flt.ltb Flt.zero tot && Flt.ltb tot Flt.hundred.

(** *** Reachability *)

(** [s] has an arc to [d]. *)
Definition edge (fst : StdVectorFst) (s d : nat) : Prop :=
  exists a, a ∈ Arcs fst s /\ nextstate a = d.

(** [d] can be reached from [s] along arcs ([s] itself included). *)
Definition reaches (fst : StdVectorFst) (s d : nat) : Prop := rtc (edge fst) s d.

Definition strongly_connected (fst : StdVectorFst) : Prop :=
  forall s d, (s < NumStates fst)%nat -> (d < NumStates fst)%nat -> reaches fst s d.

Fixpoint count_true (l : list bool) : nat :=
  match l with
  | [] => 0
  | b :: l' => (if b then 1 else 0) + count_true l'
  end.

(** The indices of the [true] entries of [l], counted from [i]. *)
Fixpoint true_from (i : nat) (l : list bool) : list nat :=
  match l with
  | [] => []
  | b :: l' => (if b then [i] else []) ++ true_from (S i) l'
  end.

Definition marked (st : search) (s : nat) : Prop := can_reach st !! s = Some true.

#[global] Instance marked_dec st s : Decision (marked st s) :=
  decide (can_reach st !! s = Some true).

(** The invariant of the [while] loop. *)
Definition search_inv (fst : StdVectorFst) (dest_state : nat) (st : search) : Prop :=
  length (can_reach st) = NumStates fst /\
  num_states_can_reach st = count_true (can_reach st) /\
  marked st dest_state /\
  (forall s, s ∈ queue st -> marked st s) /\
  (forall s, marked st s -> reaches fst s dest_state) /\
  (forall s p, marked st s -> s ∉ queue st -> edge fst p s -> marked st p).

(** *** The candidates of the selection *)

(** The pairs pushed for the states, in the order of the pushes. *)
Definition real_pairs (initial_probs : list BaseFloat) : list (BaseFloat * nat) :=
  map (fun i => (Flt.opp (default Flt.zero (initial_probs !! i)), i))
      (seq 0 (length initial_probs)).

Definition is_neg (x : BaseFloat * nat) : bool := Flt.ltb x.1 Flt.zero.

Definition is_state0 (x : BaseFloat * nat) : bool := (x.2 =? 0)%nat.

(** [initial_probs(i) == 0] *)
Definition zero_prob (initial_probs : list BaseFloat) (i : nat) : bool :=
  SFeqb (default Flt.zero (initial_probs !! i)) Flt.zero.

(** The states whose initial probability is exactly zero. *)
Definition zero_prob_states (initial_probs : list BaseFloat) : list nat :=
  List.filter (zero_prob initial_probs) (seq 0 (length initial_probs)).

(** The pushed pairs of the states whose initial probability is positive. *)
Definition positive_pairs (initial_probs : list BaseFloat) : list (BaseFloat * nat) :=
  List.filter is_neg (real_pairs initial_probs).

(** No entry is negative or a NaN. *)
Definition probs_nonneg (initial_probs : list BaseFloat) : Prop :=
  Forall (fun v => Flt.leb Flt.zero v = true) initial_probs.

(** *** Selection as a ranking of all the states

    The states sorted by decreasing initial probability, and the scan of
    that list: the selection that the comment in the source and the
    design describe. *)
Definition ranked_states (initial_probs : list BaseFloat) : list nat :=
  (sort (real_pairs initial_probs)).*2.

Definition select_by_rank (fst : StdVectorFst) (initial_probs : list BaseFloat)
  : result nat :=
  scan fst (min_states_can_reach (length initial_probs)) (ranked_states initial_probs).

(** *** Automata in two parts without arcs between them *)

(** No arc joins a state of one side to a state of the other. *)
Definition no_crossing (fst : StdVectorFst) (side : nat -> bool) : Prop :=
  forall s a, a ∈ Arcs fst s -> side (nextstate a) = side s.

Definition no_crossingb (fst : StdVectorFst) (side : nat -> bool) : bool :=
  forallb (fun x => Bool.eqb (side (nextstate x.2)) (side x.1)) (all_arcs fst).

Definition side_size (fst : StdVectorFst) (side : nat -> bool) (b : bool) : nat :=
  length (List.filter (fun s => Bool.eqb (side s) b) (seq 0 (NumStates fst))).

(** Two parts of [k] states each, without arcs between them. *)
Definition equal_parts (fst : StdVectorFst) (side : nat -> bool) (k : nat) : Prop :=
  no_crossing fst side /\ side_size fst side true = k /\ side_size fst side false = k.

(** *** Weights [0] and infinity *)

(** Weights that are [0] or infinite. *)
Definition is01 (w : BaseFloat) : bool :=
  match w with
  | S754_zero false | S754_infinity false => true
  | _ => false
  end.

Definition weights01 (fst : StdVectorFst) : bool :=
  forallb (fun x => is01 (weight x.2)) (all_arcs fst) &&
  forallb (fun st => is01 (final st)) (states fst).

(** An [exp] with [exp(-0) = 1] and [exp(-inf) = 0]. *)
Definition exp_exact (exp : spec_float -> spec_float) : Prop :=
  exp (S754_zero true) = Flt.one /\ exp (S754_infinity true) = Flt.zero.

(** ** Concrete automata *)

(** An [exp] for automata whose weights are all [0] or infinite:
    [exp(-0) = 1], [exp(-inf) = 0]. *)
Definition exp01 (x : spec_float) : spec_float :=
  match x with
  | S754_zero _ => Flt.one
  | _ => Flt.zero
  end.

Definition arc_to (label : Z) (d : nat) : StdArc :=
  {| ilabel := label; olabel := label; weight := Flt.zero; nextstate := d |}.
Definition fst2 := mkFst 0 [mkState Flt.infinity [arc_to 1 1]; mkState Flt.zero [arc_to 1 1]].

Definition one_f : BaseFloat := Eval vm_compute in Flt.to_single Flt.one.

(** A state without final weight whose only arc, of weight 0, goes to [d]. *)
Definition loop_state (d : nat) : FstState := mkState Flt.infinity [arc_to 1 d].

(** Two states in a row: the second is final and has no arc. *)
Definition chain2 : StdVectorFst :=
  mkFst 0 [mkState Flt.infinity [arc_to 1 1]; mkState Flt.zero []].

(** Two states, each with a self-loop only. *)
Definition isolated2 : StdVectorFst := mkFst 0 [loop_state 0; loop_state 1].

(** Two cycles of two states. *)
Definition cycles4 : StdVectorFst :=
  mkFst 0 [loop_state 1; loop_state 0; loop_state 3; loop_state 2].

(** The start state 0 leads to state 1, which loops on itself; the states
    2 ... 7 form a cycle that the start state does not reach. *)
Definition fst8 : StdVectorFst :=
  mkFst 0 [loop_state 1; loop_state 1; loop_state 3; loop_state 4;
           loop_state 5; loop_state 6; loop_state 7; loop_state 2].

(** The initial probabilities that the propagation gives for [fst8]. *)
Definition probs8 : list BaseFloat :=
  [Flt.zero; one_f; Flt.zero; Flt.zero; Flt.zero; Flt.zero; Flt.zero; Flt.zero].

(** One state whose only arc carries the label 0. *)
Definition epsilon_fst : StdVectorFst := mkFst 0 [mkState Flt.zero [arc_to 0 0]].

(** One state without arcs and without final weight. *)
Definition massless_fst : StdVectorFst := mkFst 0 [mkState Flt.infinity []].

(** One state without arcs, with final weight [w]. *)
Definition single_state (w : BaseFloat) : StdVectorFst := mkFst 0 [mkState w []].

(** ** MapFstToPdfIdsPlusOne *)

(** The body of a loop run over a list in place, stopping at the first
    failure. *)
Fixpoint mapM {A B} (f : A -> result B) (l : list A) : result (list B) :=
  match l with
  | [] => Ok []
  | a :: l' => b ← f a; bs ← mapM f l'; Ok (b :: bs)
  end.

Section MapFst.

(** [trans_model.TransitionIdToPdf], of the transition model. *)
Variable TransitionIdToPdf : Z -> Z.

(** The labels that a positive transition-id is replaced by. *)
Definition pdf_label (arc : StdArc) : StdArc :=
  let ilabel := TransitionIdToPdf (ilabel arc) + 1 in
  {| ilabel := ilabel; olabel := ilabel;
     weight := weight arc; nextstate := nextstate arc |}.

(** The body of the arc loop: the value that the iterator holds at [arc]
    afterwards. *)
Definition map_arc (arc : StdArc) : result StdArc :=
  _ ← KALDI_ASSERT (ilabel arc =? olabel arc);
  if 0 <? ilabel arc then Ok (pdf_label arc) else Ok arc.

Definition map_state (st : FstState) : result FstState :=
  arcs' ← mapM map_arc (arcs st);
  Ok {| final := final st; arcs := arcs' |}.

Definition MapFstToPdfIdsPlusOne (fst : StdVectorFst) : result StdVectorFst :=
  states' ← mapM map_state (states fst);
  Ok {| Start := Start fst; states := states' |}.

(** The automaton with every positive label replaced. *)
Definition relabel_arc (arc : StdArc) : StdArc :=
  if 0 <? ilabel arc then pdf_label arc else arc.

Definition relabel (fst : StdVectorFst) : StdVectorFst :=
  {| Start := Start fst;
     states := map (fun st => {| final := final st; arcs := map relabel_arc (arcs st) |})
                   (states fst) |}.

End MapFst.

(** Every arc has the same input and output label. *)
Definition acceptor (fst : StdVectorFst) : Prop :=
  forall s a, a ∈ Arcs fst s -> ilabel a = olabel a.

Definition acceptorb (fst : StdVectorFst) : bool :=
  forallb (fun x => ilabel x.2 =? olabel x.2) (all_arcs fst).

(** ** DenominatorGraph::GetNormalizationFst *)

(** The mutators of [fst::VectorFst]: [AddState] appends a state without
    arcs and without final weight, [AddArc] appends an arc to a state. *)
Definition AddState (fst : StdVectorFst) : StdVectorFst :=
  {| Start := Start fst; states := states fst ++ [mkState Flt.infinity []] |}.

Definition AddArc (s : nat) (arc : StdArc) (fst : StdVectorFst) : StdVectorFst :=
  {| Start := Start fst;
     states := alter (fun st => {| final := final st; arcs := arcs st ++ [arc] |})
                     s (states fst) |}.

Definition SetFinal (s : nat) (w : BaseFloat) (fst : StdVectorFst) : StdVectorFst :=
  {| Start := Start fst;
     states := alter (fun st => {| final := w; arcs := arcs st |}) s (states fst) |}.

Definition SetStart (s : nat) (fst : StdVectorFst) : StdVectorFst :=
  {| Start := s; states := states fst |}.

Section Normalization.

(** The [log] of the C library. *)
Variable log : spec_float -> spec_float.

(** [fst::RmEpsilon] and [fst::ArcSort] with [ILabelCompare], of OpenFst. *)
Variables RmEpsilon ArcSort : StdVectorFst -> StdVectorFst.

(** [fst::StdArc arc(0, 0, fst::TropicalWeight(-log(initial_prob)), s)] *)
Definition initial_arc (initial_prob : BaseFloat) (s : nat) : StdArc :=
  {| ilabel := 0; olabel := 0;
     weight := Flt.to_single (Flt.opp (log initial_prob));
     nextstate := s |}.

(** The body of the loop over the states; [TropicalWeight::One()] is 0. *)
Definition add_initial_arc (new_initial_state : nat) (initial_probs : list BaseFloat)
    (ofst : StdVectorFst) (s : nat) : StdVectorFst :=
  let initial_prob := default Flt.zero (initial_probs !! s) in
  SetFinal s Flt.zero (AddArc new_initial_state (initial_arc initial_prob s) ofst).

(** The automaton on which [RmEpsilon] is called. *)
Definition add_initial_state (ifst : StdVectorFst) (initial_probs : list BaseFloat)
  : StdVectorFst :=
  let ofst := ifst in
  let new_initial_state := NumStates ofst in
  let ofst := AddState ofst in
  let ofst := fold_left (add_initial_arc new_initial_state initial_probs)
                        (seq 0 (length initial_probs)) ofst in
  SetStart new_initial_state ofst.

Definition GetNormalizationFst (ifst : StdVectorFst) (initial_probs_ : list BaseFloat)
  : result StdVectorFst :=
  _ ← KALDI_ASSERT (NumStates ifst =? length initial_probs_)%nat;
  Ok (ArcSort (RmEpsilon (add_initial_state ifst initial_probs_))).

End Normalization.

(** ** More notions for the statements *)

(** The destinations of the arcs of every state: the graph without
    labels, weights, final weights and start state. *)
Definition shape (fst : StdVectorFst) : list (list nat) :=
  map (fun st => map nextstate (arcs st)) (states fst).

(** The record [tr] seen from the other end of its arc: the same pdf-id and
    probability, with [s] as the adjacent state. *)
Definition with_state (tr : DenominatorGraphTransition) (s : nat)
  : DenominatorGraphTransition :=
  {| transition_prob := transition_prob tr; pdf_id := pdf_id tr; hmm_state := s |}.

(** Every initial probability is above zero. *)
Definition probs_positive (initial_probs : list BaseFloat) : Prop :=
  Forall (fun v => Flt.ltb Flt.zero v = true) initial_probs.

(** Transition-ids [1 ... 4] with the pdfs [0, 0, 1, 1]. *)
Definition tid_pdf (tid : Z) : Z := (tid - 1) / 2.

(** Two states with arcs labelled by the transition-ids 1, 3 and 4. *)
Definition tid_fst : StdVectorFst :=
  mkFst 0 [mkState Flt.infinity [arc_to 1 0; arc_to 3 1];
           mkState Flt.zero [arc_to 4 1]].

(** Two states in a cycle. *)
Definition cycle2 : StdVectorFst := mkFst 0 [loop_state 1; loop_state 0].

(** The shape of [fst2] with other labels, weights, final weights and start
    state. *)
Definition fst2_other : StdVectorFst :=
  mkFst 1 [mkState Flt.zero [mkArc 2 3 Flt.one 1]; mkState Flt.infinity [mkArc 5 5 one_f 1]].

(** A [log] for the probabilities 0 and 1: [log(1) = 0], [log(0) = -inf]. *)
Definition log01 (x : spec_float) : spec_float :=
  match x with
  | S754_zero _ => S754_infinity true
  | _ => Flt.zero
  end.

(** The number of records that the ranges of a table delimit. *)
Definition range_total (ranges : list Int32Pair) : Z :=
  foldr (fun r total => (r.2 - r.1) + total) 0 ranges.

(** * Properties *)

(** ** Loops *)

Section Loops.

Context {A B : Type}.

Lemma foldM_app (f : B -> A -> result B) l1 l2 b :
  foldM f (l1 ++ l2) b = (b' ← foldM f l1 b; foldM f l2 b').
Proof.
  revert b; induction l1 as [|a l1 IH]; intros b; simpl; [done|].
  destruct (f b a); simpl; auto.
Qed.

Lemma foldM_ext (f g : B -> A -> result B) l b :
  (forall a b', a ∈ l -> f b' a = g b' a) -> foldM f l b = foldM g l b.
Proof.
  revert b; induction l as [|a l IH]; intros b Hfg; simpl; [done|].
  rewrite (Hfg a b) by apply list_elem_of_here.
  destruct (g b a); simpl; auto. apply IH. intros; apply Hfg; by apply list_elem_of_further.
Qed.

(** A loop whose body never fails is a [fold_left]. *)
Lemma foldM_pure (f : B -> A -> result B) (g : B -> A -> B) l b :
  (forall a b', a ∈ l -> f b' a = Ok (g b' a)) -> foldM f l b = Ok (fold_left g l b).
Proof.
  revert b; induction l as [|a l IH]; intros b Hfg; simpl; [done|].
  rewrite (Hfg a b) by apply list_elem_of_here. simpl. apply IH. intros; apply Hfg; by apply list_elem_of_further.
Qed.

(** A loop whose body can only fail an assertion fails one as soon as some
    element does. *)
Lemma foldM_assert (f : B -> A -> result B) (ok : A -> bool) (g : B -> A -> B) l b :
  (forall a b', f b' a = if ok a then Ok (g b' a) else AssertFailed) ->
  (exists a, a ∈ l /\ ok a = false) ->
  foldM f l b = AssertFailed.
Proof.
  intros Hf. revert b; induction l as [|a l IH]; intros b [x [Hx Hbad]].
  - by apply elem_of_nil in Hx.
  - simpl. rewrite Hf. destruct (ok a) eqn:Hok; simpl; [|done].
    apply IH. exists x. split; [|done].
    apply elem_of_cons in Hx as [->|]; [congruence|done].
Qed.

End Loops.

Lemma forallb_false {A} (f : A -> bool) l :
  forallb f l = false -> exists a, a ∈ l /\ f a = false.
Proof.
  induction l as [|a l IH]; simpl; [done|].
  destruct (f a) eqn:E; simpl.
  - intros (x & Hx & Hf)%IH. exists x. split; [by apply list_elem_of_further|done].
  - intros _. exists a. split; [apply list_elem_of_here|done].
Qed.

(** The two nested loops over states and arcs are one loop over [all_arcs]. *)
Lemma foldM_all_arcs {B} (g : nat -> B -> StdArc -> result B) (arcs_of : nat -> list StdArc)
    (l : list nat) (b : B) :
  foldM (fun acc s => foldM (g s) (arcs_of s) acc) l b =
  foldM (fun acc x => g x.1 acc x.2) (flat_map (fun s => map (pair s) (arcs_of s)) l) b.
Proof.
  revert b; induction l as [|s l IH]; intros b; simpl; [done|].
  rewrite foldM_app.
  assert (Hin : forall l' b', foldM (g s) l' b' =
            foldM (fun acc x => g x.1 acc x.2) (map (pair s) l') b').
  { induction l' as [|a l' IH']; intros b'; simpl; [done|].
    destruct (g s b' a); simpl; auto. }
  rewrite <- Hin. destruct (foldM (g s) (arcs_of s) b); simpl; auto.
Qed.

Lemma fold_left_all_arcs {B} (g : nat -> B -> StdArc -> B) (arcs_of : nat -> list StdArc)
    (l : list nat) (b : B) :
  fold_left (fun acc s => fold_left (g s) (arcs_of s) acc) l b =
  fold_left (fun acc x => g x.1 acc x.2) (flat_map (fun s => map (pair s) (arcs_of s)) l) b.
Proof.
  revert b; induction l as [|s l IH]; intros b; simpl; [done|].
  rewrite fold_left_app, IH. f_equal.
  generalize (arcs_of s). intros l'. revert b.
  induction l' as [|a l' IH']; intros b; simpl; auto.
Qed.

(** ** Buckets filled by [push_back] *)

Section Buckets.

Context {A X : Type} (key : X -> nat) (val : X -> A).

Lemma lookup_fold_push (l : list X) (v : list (list A)) (i : nat) :
  fold_left (fun v x => push_back (key x) (val x) v) l v !! i =
  (fun b => b ++ map val (keyed key i l)) <$> v !! i.
Proof.
  revert v; induction l as [|x l IH]; intros v; simpl.
  - destruct (v !! i); simpl; [|done]. by rewrite app_nil_r.
  - rewrite IH. unfold push_back.
    destruct (Nat.eqb_spec (key x) i) as [->|Hne].
    + rewrite list_lookup_alter_eq. destruct (v !! i); simpl; [|done].
      by rewrite <- app_assoc.
    + by rewrite list_lookup_alter_ne.
Qed.

(** Starting from empty buckets, bucket [i] holds the values pushed with
    key [i], in the order of the pushes. *)
Lemma fold_push_replicate (l : list X) (n : nat) :
  fold_left (fun v x => push_back (key x) (val x) v) l (replicate n []) =
  map (fun i => map val (keyed key i l)) (seq 0 n).
Proof.
  apply list_eq. intros i. rewrite lookup_fold_push, list_lookup_fmap.
  destruct (decide (i < n)%nat) as [Hi|Hi].
  - rewrite lookup_replicate_2, lookup_seq_lt by done. done.
  - rewrite lookup_seq_ge by lia.
    by rewrite (proj1 (lookup_replicate_None n [] i)) by lia.
Qed.

(** Keys below [n] put every element in exactly one of [n] buckets. *)
Lemma keyed_total_length (l : list X) (n : nat) :
  Forall (fun x => key x < n)%nat l ->
  length (concat (map (fun i => map val (keyed key i l)) (seq 0 n))) = length l.
Proof.
  induction 1 as [|x l Hx _ IH]; simpl.
  - induction (seq 0 n); simpl; auto.
  - rewrite <- IH. clear IH.
    assert (Hgen : forall a m, (a <= key x < a + m)%nat \/ ~ (a <= key x < a + m)%nat ->
      length (concat (map (fun i => map val (keyed key i (x :: l))) (seq a m))) =
      ((if bool_decide (a <= key x < a + m)%nat then 1 else 0) +
       length (concat (map (fun i => map val (keyed key i l)) (seq a m))))%nat).
    { intros a m _. revert a. induction m as [|m IHm]; intros a; simpl.
      - rewrite bool_decide_eq_false_2 by lia. done.
      - rewrite !length_app, IHm. unfold keyed at 1; simpl.
        destruct (Nat.eqb_spec (key x) a) as [Heq|Hne]; simpl.
        + rewrite bool_decide_eq_false_2 by lia.
          rewrite bool_decide_eq_true_2 by lia. unfold keyed. lia.
        + destruct (decide (S a <= key x < S a + m)%nat).
          * rewrite !bool_decide_eq_true_2 by lia. unfold keyed. lia.
          * rewrite !bool_decide_eq_false_2 by lia. unfold keyed. lia. }
    rewrite Hgen by lia. rewrite bool_decide_eq_true_2 by lia. done.
Qed.

End Buckets.

(** ** The arcs of the automaton *)

Lemma elem_of_all_arcs fst s a : (s, a) ∈ all_arcs fst <-> a ∈ Arcs fst s.
Proof.
  unfold all_arcs. rewrite list_elem_of_In, in_flat_map. split.
  - intros (s' & _ & Hin). apply in_map_iff in Hin as (a' & [= -> ->] & Hin).
    by apply list_elem_of_In.
  - intros Hin. exists s. split.
    + apply in_seq. split; [lia|]. simpl. unfold Arcs, NumStates in *.
      destruct (states fst !! s) eqn:E; [|by apply elem_of_nil in Hin].
      by apply lookup_lt_Some in E.
    + apply in_map. by apply list_elem_of_In.
Qed.

Lemma all_arcs_source fst x : x ∈ all_arcs fst -> (x.1 < NumStates fst)%nat.
Proof.
  unfold all_arcs. rewrite list_elem_of_In, in_flat_map.
  intros (s & Hs & Hin). apply in_map_iff in Hin as (a & <- & _).
  apply in_seq in Hs. simpl. lia.
Qed.

Lemma all_arcs_dest fst x : fst_wf fst -> x ∈ all_arcs fst -> (nextstate x.2 < NumStates fst)%nat.
Proof.
  intros [_ Hwf] Hx. destruct x as [s a]. apply elem_of_all_arcs in Hx. eauto.
Qed.

Lemma fst_wfb_sound fst : fst_wfb fst = true -> fst_wf fst.
Proof.
  unfold fst_wfb. intros [H1 H2]%andb_prop. split.
  - by apply bool_decide_eq_true in H1.
  - intros s a Ha. apply elem_of_all_arcs, list_elem_of_In in Ha.
    rewrite forallb_forall in H2. apply H2 in Ha.
    by apply bool_decide_eq_true in Ha.
Qed.

Lemma labels_validb_sound fst num_pdfs :
  labels_validb fst num_pdfs = true -> labels_valid fst num_pdfs.
Proof.
  unfold labels_validb. intros H s a Ha.
  apply elem_of_all_arcs, list_elem_of_In in Ha.
  rewrite forallb_forall in H. apply H in Ha. simpl in Ha. lia.
Qed.

(** The arcs of [all_arcs] with source [s] are the arcs of [s]. *)
Lemma keyed_source fst s :
  keyed (fun x : nat * StdArc => x.1) s (all_arcs fst) = map (pair s) (Arcs fst s).
Proof.
  unfold all_arcs, keyed.
  assert (Hgen : forall a n,
    List.filter (fun x : nat * StdArc => x.1 =? s)%nat
      (flat_map (fun s' => map (pair s') (Arcs fst s')) (seq a n)) =
    if bool_decide (a <= s < a + n)%nat then map (pair s) (Arcs fst s) else []).
  { intros a n; revert a; induction n as [|n IH]; intros a; simpl.
    - by rewrite bool_decide_eq_false_2 by lia.
    - rewrite List.filter_app, IH.
      assert (Hhd : List.filter (fun x : nat * StdArc => x.1 =? s)%nat
                      (map (pair a) (Arcs fst a)) =
                    if (a =? s)%nat then map (pair a) (Arcs fst a) else []).
      { induction (Arcs fst a) as [|y l IHl]; simpl; [by destruct (a =? s)%nat|].
        rewrite IHl. by destruct (a =? s)%nat. }
      rewrite Hhd. destruct (Nat.eqb_spec a s) as [Heq|Hne].
      + rewrite bool_decide_eq_false_2 by lia.
        rewrite bool_decide_eq_true_2 by lia. by rewrite app_nil_r, Heq.
      + simpl. destruct (decide (S a <= s < S a + n)%nat).
        * by rewrite !bool_decide_eq_true_2 by lia.
        * by rewrite !bool_decide_eq_false_2 by lia. }
  rewrite Hgen. destruct (decide (s < NumStates fst)%nat) as [Hs|Hs].
  - by rewrite bool_decide_eq_true_2 by lia.
  - rewrite bool_decide_eq_false_2 by lia.
    unfold Arcs, NumStates in *. by rewrite lookup_ge_None_2 by lia.
Qed.

(** ** SetTransitions *)

Lemma wrap32_small z : 0 <= z <= INT32_MAX -> wrap32 z = z.
Proof.
  unfold wrap32, INT32_MAX. intros Hz.
  rewrite Z.mod_small by lia. lia.
Qed.

Section SetTransitionsFacts.

Variable exp : spec_float -> spec_float.

Lemma transitions_arc_unfold num_pdfs (x : nat * StdArc) acc :
  transitions_arc exp num_pdfs x.1 acc x.2 =
  if label_ok num_pdfs x.2 then Ok (push_both exp acc x) else AssertFailed.
Proof.
  unfold transitions_arc, label_ok, push_both. destruct acc as [o i]. simpl.
  by destruct (_ && _).
Qed.

Lemma collect_transitions_unfold fst num_pdfs :
  collect_transitions exp fst num_pdfs =
  foldM (fun acc x => transitions_arc exp num_pdfs x.1 acc x.2) (all_arcs fst)
        (replicate (NumStates fst) [], replicate (NumStates fst) []).
Proof.
  unfold collect_transitions, transitions_state, all_arcs.
  apply (foldM_all_arcs (fun s acc a => transitions_arc exp num_pdfs s acc a)).
Qed.

Lemma fold_push_both l acc :
  fold_left (push_both exp) l acc =
  (fold_left (fun v x => push_back x.1 (forward_record exp x.2) v) l acc.1,
   fold_left (fun v x => push_back (nextstate x.2) (backward_record exp x) v) l acc.2).
Proof.
  revert acc; induction l as [|x l IH]; intros [o i]; simpl; [done|].
  by rewrite IH.
Qed.

(** With valid labels the first pair of loops fills the buckets of every
    state with the records of its out-arcs and of its in-arcs. *)
Lemma collect_transitions_ok fst num_pdfs :
  labels_valid fst num_pdfs ->
  collect_transitions exp fst num_pdfs =
  Ok (map (forward_bucket exp fst) (seq 0 (NumStates fst)),
      map (backward_bucket exp fst) (seq 0 (NumStates fst))).
Proof.
  intros Hlab. rewrite collect_transitions_unfold.
  rewrite (foldM_pure _ (push_both exp)).
  - rewrite fold_push_both. simpl. f_equal. f_equal.
    + rewrite (fold_push_replicate (fun x : nat * StdArc => x.1)
                 (fun x => forward_record exp x.2)).
      apply map_ext. intros s. rewrite keyed_source.
      unfold forward_bucket. by rewrite map_map.
    + by rewrite (fold_push_replicate (fun x : nat * StdArc => nextstate x.2)
                    (backward_record exp)).
  - intros [s a] acc Hin. rewrite transitions_arc_unfold.
    apply elem_of_all_arcs, Hlab in Hin. unfold label_ok. simpl.
    rewrite (proj2 (Z.leb_le _ _)), (proj2 (Z.ltb_lt _ _)) by lia. done.
Qed.

(** An arc with a label out of range trips the assertion. *)
Lemma collect_transitions_bad_label fst num_pdfs s a :
  a ∈ Arcs fst s ->
  ilabel a - 1 < 0 \/ num_pdfs <= ilabel a - 1 ->
  collect_transitions exp fst num_pdfs = AssertFailed.
Proof.
  intros Hin Hbad. rewrite collect_transitions_unfold.
  apply (foldM_assert _ (fun x => label_ok num_pdfs x.2) (push_both exp)).
  - intros x acc. apply transitions_arc_unfold.
  - exists (s, a). split; [by apply elem_of_all_arcs|].
    unfold label_ok. simpl. apply andb_false_iff.
    destruct Hbad; [left; apply Z.leb_gt | right; apply Z.ltb_ge]; lia.
Qed.

Lemma forward_buckets_length fst :
  length (concat (map (forward_bucket exp fst) (seq 0 (NumStates fst)))) = num_arcs fst.
Proof.
  unfold num_arcs.
  rewrite <- (keyed_total_length (fun x : nat * StdArc => x.1)
                (fun x => forward_record exp x.2) (all_arcs fst) (NumStates fst)).
  - f_equal. f_equal. apply map_ext. intros s. rewrite keyed_source.
    unfold forward_bucket. by rewrite map_map.
  - apply Forall_forall. intros x Hx. by apply all_arcs_source.
Qed.

Lemma backward_buckets_length fst :
  fst_wf fst ->
  length (concat (map (backward_bucket exp fst) (seq 0 (NumStates fst)))) = num_arcs fst.
Proof.
  intros Hwf. unfold num_arcs.
  rewrite <- (keyed_total_length (fun x : nat * StdArc => nextstate x.2)
                (backward_record exp) (all_arcs fst) (NumStates fst)); [done|].
  apply Forall_forall. intros x Hx. by apply all_arcs_dest.
Qed.

(** The layout loop: the records are appended bucket after bucket, and the
    range of bucket [i] delimits it, also when more records follow. *)
Lemma flatten_spec bs pre rs t :
  flatten bs pre = (rs, t) ->
  Z.of_nat (length pre + length (concat bs)) <= INT32_MAX ->
  t = pre ++ concat bs /\
  length rs = length bs /\
  tiles rs (Z.of_nat (length pre)) (Z.of_nat (length t)) /\
  forall i b, bs !! i = Some b ->
    exists r, rs !! i = Some r /\ forall more, slice r (t ++ more) = b.
Proof.
  revert pre rs t. induction bs as [|b bs IH]; intros pre rs t; simpl.
  - intros [= <- <-] _. rewrite app_nil_r. repeat split.
    intros i b Hi. by rewrite lookup_nil in Hi.
  - destruct (flatten bs (pre ++ b)) as [rs' t'] eqn:E.
    intros [= <- <-] Hfit. rewrite length_app in Hfit.
    destruct (IH _ _ _ E) as (-> & Hlen & Htiles & Hslice).
    { rewrite length_app. lia. }
    unfold size_to_int32. rewrite !wrap32_small by (rewrite ?length_app; lia).
    rewrite <- app_assoc. repeat split; simpl; try lia.
    + rewrite length_app. lia.
    + by rewrite <- app_assoc in Htiles.
    + intros [|i] b' Hi; simpl in *.
      * injection Hi as ->. eexists; split; [done|]. intros more.
        unfold slice. simpl.
        replace (Z.to_nat (Z.of_nat (length (pre ++ b')) - Z.of_nat (length pre)))
          with (length b') by (rewrite length_app; lia).
        rewrite Nat2Z.id, <- !app_assoc, drop_app_length.
        by rewrite take_app_length.
      * destruct (Hslice i b' Hi) as (r & Hr & Hmore).
        exists r. split; [done|]. intros more.
        rewrite (app_assoc pre b). apply Hmore.
Qed.

(** The tables of a well-formed automaton with valid labels whose records
    can be counted in an [int32]. *)
Lemma SetTransitions_ok fst num_pdfs :
  fst_wf fst ->
  labels_valid fst num_pdfs ->
  2 * Z.of_nat (num_arcs fst) <= INT32_MAX ->
  exists t, SetTransitions exp fst num_pdfs = Ok t /\
    transitions_ t = concat (map (forward_bucket exp fst) (seq 0 (NumStates fst))) ++
                     concat (map (backward_bucket exp fst) (seq 0 (NumStates fst))) /\
    length (forward_transitions_ t) = NumStates fst /\
    length (backward_transitions_ t) = NumStates fst /\
    tiles (forward_transitions_ t) 0 (Z.of_nat (num_arcs fst)) /\
    tiles (backward_transitions_ t) (Z.of_nat (num_arcs fst))
          (2 * Z.of_nat (num_arcs fst)) /\
    forall s, (s < NumStates fst)%nat ->
      exists rf rb,
        forward_transitions_ t !! s = Some rf /\
        backward_transitions_ t !! s = Some rb /\
        slice rf (transitions_ t) = forward_bucket exp fst s /\
        slice rb (transitions_ t) = backward_bucket exp fst s.
Proof.
  intros Hwf Hlab Hfit. unfold SetTransitions.
  rewrite collect_transitions_ok by done. simpl.
  pose proof (forward_buckets_length fst) as Hf.
  pose proof (backward_buckets_length fst Hwf) as Hb.
  destruct (flatten (map (forward_bucket exp fst) _) []) as [rf t1] eqn:E1.
  destruct (flatten (map (backward_bucket exp fst) _) t1) as [rb t2] eqn:E2.
  destruct (flatten_spec _ _ _ _ E1) as (-> & Hl1 & Ht1 & Hs1).
  { simpl. lia. }
  simpl in E2.
  destruct (flatten_spec _ _ _ _ E2) as (-> & Hl2 & Ht2 & Hs2).
  { lia. }
  eexists; split; [done|]. simpl in *.
  rewrite length_map, length_seq in Hl1, Hl2.
  rewrite Hf in Ht1, Ht2. rewrite length_app, Hf, Hb in Ht2.
  repeat split; try done.
  - by replace (2 * Z.of_nat (num_arcs fst)) with
      (Z.of_nat (num_arcs fst + num_arcs fst)) by lia.
  - intros s Hs.
    destruct (Hs1 s (forward_bucket exp fst s)) as (r1 & Hr1 & Hm1).
    { by rewrite list_lookup_fmap, lookup_seq_lt. }
    destruct (Hs2 s (backward_bucket exp fst s)) as (r2 & Hr2 & Hm2).
    { by rewrite list_lookup_fmap, lookup_seq_lt. }
    exists r1, r2. repeat split; try done.
    specialize (Hm2 []). by rewrite app_nil_r in Hm2.
Qed.

End SetTransitionsFacts.

(** ** NumStatesThatCanReach *)

Lemma count_true_le l : (count_true l <= length l)%nat.
Proof. induction l as [|[] l IH]; simpl; lia. Qed.

Lemma count_true_replicate n : count_true (replicate n false) = 0%nat.
Proof. induction n; simpl; auto. Qed.

Lemma count_true_insert l i :
  l !! i = Some false -> count_true (<[i:=true]> l) = S (count_true l).
Proof.
  revert i; induction l as [|b l IH]; intros [|i] Hi; simpl in *; try done.
  - by injection Hi as ->.
  - rewrite (IH i Hi). lia.
Qed.

Lemma length_true_from i l : length (true_from i l) = count_true l.
Proof.
  revert i; induction l as [|[] l IH]; intros i; simpl; rewrite ?IH; done.
Qed.

Lemma elem_of_true_from i l x :
  x ∈ true_from i l <-> exists j, x = (i + j)%nat /\ l !! j = Some true.
Proof.
  revert i; induction l as [|b l IH]; intros i; simpl.
  - split; [by intros ?%elem_of_nil | by intros (j & _ & ?)].
  - rewrite elem_of_app, IH. split.
    + intros [Hx | (j & -> & Hj)].
      * destruct b; [|by apply elem_of_nil in Hx].
        apply list_elem_of_singleton in Hx as ->. exists 0%nat. split; [lia|done].
      * exists (S j). split; [lia|done].
    + intros ([|j] & -> & Hj); simpl in Hj.
      * injection Hj as ->. left. rewrite Nat.add_0_r. apply list_elem_of_here.
      * right. exists j. split; [lia|done].
Qed.

Lemma NoDup_true_from i l : NoDup (true_from i l).
Proof.
  revert i; induction l as [|b l IH]; intros i; simpl; [by apply NoDup_nil|].
  apply NoDup_app. repeat split; [destruct b; [apply NoDup_singleton | by apply NoDup_nil]| |done].
  intros x Hx Hx'. apply elem_of_true_from in Hx' as (j & -> & _).
  destruct b; [|by apply elem_of_nil in Hx].
  apply list_elem_of_singleton in Hx. lia.
Qed.

(** [reverse_transitions[d]] lists the sources of the arcs into [d]. *)
Lemma reverse_transitions_spec fst :
  reverse_transitions fst =
  map (fun d => map (fun x : nat * StdArc => x.1) (in_arcs fst d)) (seq 0 (NumStates fst)).
Proof.
  unfold reverse_transitions.
  rewrite (fold_left_all_arcs (fun s rt a => push_back (nextstate a) s rt) (Arcs fst)).
  apply (fold_push_replicate (fun x : nat * StdArc => nextstate x.2)
           (fun x : nat * StdArc => x.1)).
Qed.

Lemma predecessors_spec fst d p :
  (d < NumStates fst)%nat ->
  p ∈ default [] (reverse_transitions fst !! d) <-> edge fst p d.
Proof.
  intros Hd. rewrite reverse_transitions_spec, list_lookup_fmap, lookup_seq_lt by done.
  simpl. unfold in_arcs, edge. rewrite list_elem_of_fmap. split.
  - intros ([s a] & -> & Hin). apply list_elem_of_In, filter_In in Hin as [Hin Heq].
    exists a. split; [by apply elem_of_all_arcs, list_elem_of_In|].
    simpl in Heq. by apply Nat.eqb_eq in Heq.
  - intros (a & Hin & Hd'). exists (p, a). split; [done|].
    apply list_elem_of_In, filter_In. split.
    + by apply list_elem_of_In, elem_of_all_arcs.
    + simpl. by apply Nat.eqb_eq.
Qed.

Lemma edge_source fst p d : edge fst p d -> (p < NumStates fst)%nat.
Proof.
  intros (a & Hin & _). apply elem_of_all_arcs, all_arcs_source in Hin. done.
Qed.

(** The loop over the predecessors marks exactly the predecessors not yet
    marked, queues them, and counts them. *)
Lemma fold_visit_spec (ps : list nat) (st : search) :
  Forall (fun p => p < length (can_reach st))%nat ps ->
  let st' := fold_left visit ps st in
  length (can_reach st') = length (can_reach st) /\
  (forall x, marked st' x <-> marked st x \/ x ∈ ps) /\
  (forall x, x ∈ queue st' <-> x ∈ queue st \/ (x ∈ ps /\ ~ marked st x)) /\
  (num_states_can_reach st' + count_true (can_reach st) =
   num_states_can_reach st + count_true (can_reach st'))%nat /\
  (count_true (can_reach st') + length (queue st) =
   count_true (can_reach st) + length (queue st'))%nat.
Proof.
  revert st. induction ps as [|p ps IH]; intros st Hps; simpl.
  - repeat split; try done; try tauto.
    + intros [?|?%elem_of_nil]; done.
    + intros [?|[?%elem_of_nil _]]; done.
  - apply Forall_cons in Hps as [Hp Hps].
    destruct (lookup_lt_is_Some_2 _ _ Hp) as [b Hb].
    assert (Hstep : let st1 := visit st p in
      length (can_reach st1) = length (can_reach st) /\
      (forall x, marked st1 x <-> marked st x \/ x = p) /\
      (forall x, x ∈ queue st1 <-> x ∈ queue st \/ (x = p /\ ~ marked st p)) /\
      (num_states_can_reach st1 + count_true (can_reach st) =
       num_states_can_reach st + count_true (can_reach st1))%nat /\
      (count_true (can_reach st1) + length (queue st) =
       count_true (can_reach st) + length (queue st1))%nat).
    { unfold visit, marked. rewrite Hb. destruct b; simpl.
      - repeat split; try done; try tauto.
        intros [?| ->]; done.
      - rewrite length_insert, (count_true_insert _ _ Hb).
        repeat split; try lia.
        + intros Hx. destruct (decide (x = p)) as [->|Hne]; [by right|left].
          by rewrite list_lookup_insert_ne in Hx.
        + intros [Hx| ->]; [|by apply list_lookup_insert_eq].
          destruct (decide (x = p)) as [->|Hne]; [congruence|].
          by rewrite list_lookup_insert_ne.
        + intros [->|?]%elem_of_cons; [right; split; [done|congruence] | by left].
        + intros [?|[-> _]]; apply elem_of_cons; auto. }
    destruct Hstep as (Hlen & Hmark & Hq & Hnum & Hcnt).
    destruct (IH (visit st p)) as (Hlen' & Hmark' & Hq' & Hnum' & Hcnt').
    { by rewrite Hlen. }
    repeat split; try lia.
    + intros Hx. apply Hmark' in Hx as [Hx|Hx].
      * apply Hmark in Hx as [?| ->]; [by left | right; apply list_elem_of_here].
      * right. by apply list_elem_of_further.
    + intros [Hx|Hx]; apply Hmark'.
      * left. apply Hmark. by left.
      * apply elem_of_cons in Hx as [->|Hx]; [left; apply Hmark; by right | by right].
    + intros Hx. apply Hq' in Hx as [Hx|[Hx Hn]].
      * apply Hq in Hx as [?|[-> Hn]]; [by left | right].
        split; [apply list_elem_of_here | done].
      * right. split; [by apply list_elem_of_further|].
        intros Hm. apply Hn, Hmark. by left.
    + intros [Hx|[Hx Hn]]; apply Hq'.
      * left. apply Hq. by left.
      * apply elem_of_cons in Hx as [->|Hx].
        -- left. apply Hq. right. done.
        -- destruct (decide (x = p)) as [->|Hne].
           ++ left. apply Hq. right. done.
           ++ right. split; [done|]. intros [?|?]%Hmark; done.
Qed.

Section Search.

Variables (fst : StdVectorFst) (dest_state : nat).

Lemma search_loop_spec fuel st :
  search_inv fst dest_state st ->
  (NumStates fst - count_true (can_reach st) + length (queue st) <= fuel)%nat ->
  exists st', search_loop fuel (reverse_transitions fst) st = Ok st' /\
              search_inv fst dest_state st' /\ queue st' = [].
Proof.
  revert st. induction fuel as [|fuel IH]; intros st Hinv Hfuel.
  - destruct st as [[|s q] cr n]; simpl in *; [|lia]. eauto.
  - destruct st as [[|s q] cr n]; simpl in *; [eauto|].
    destruct Hinv as (Hlen & Hnum & Hd & Hq & Hsound & Hclosed); simpl in *.
    set (st0 := {| queue := q; can_reach := cr; num_states_can_reach := n |}).
    assert (Hs : marked st0 s) by (apply Hq, list_elem_of_here).
    assert (HsN : (s < NumStates fst)%nat).
    { rewrite <- Hlen. by apply lookup_lt_Some in Hs. }
    destruct (fold_visit_spec (default [] (reverse_transitions fst !! s)) st0)
      as (Hlen' & Hmark & Hqueue & Hnum' & Hcnt); simpl in *.
    { apply Forall_forall. intros p Hp. rewrite Hlen.
      apply predecessors_spec in Hp; [|done]. by eapply edge_source. }
    pose proof (count_true_le cr).
    pose proof (count_true_le (can_reach (fold_left visit
                  (default [] (reverse_transitions fst !! s)) st0))).
    apply IH; [|lia].
    repeat split; try lia.
    + apply Hmark. by left.
    + intros x Hx. apply Hmark. apply Hqueue in Hx as [Hx|[Hx _]]; [left|by right].
      apply Hq. by apply list_elem_of_further.
    + intros x Hx. apply Hmark in Hx as [Hx|Hx]; [by apply Hsound|].
      apply predecessors_spec in Hx; [|done].
      eapply rtc_l; [done|]. by apply Hsound.
    + intros x p Hx Hnq Hedge. apply Hmark.
      destruct (decide (marked st0 x)) as [Hm|Hm].
      * destruct (decide (x = s)) as [->|Hne].
        -- right. by apply predecessors_spec.
        -- left. apply (Hclosed x p); [done| |done].
           intros [?|?]%elem_of_cons; [done|]. apply Hnq, Hqueue. by left.
      * exfalso. apply Hnq, Hqueue. right. split; [|done].
        apply Hmark in Hx as [?|?]; done.
Qed.

Lemma search_inv_complete st s :
  search_inv fst dest_state st -> queue st = [] -> reaches fst s dest_state -> marked st s.
Proof.
  intros (_ & _ & Hd & _ & _ & Hclosed) Hq Hreach.
  induction Hreach as [|x y z Hxy _ IH]; [done|].
  apply (Hclosed y x); [by apply IH| |done].
  rewrite Hq. by intros ?%elem_of_nil.
Qed.

(** The function returns, and what it returns is the number of states from
    which [dest_state] can be reached. *)
Lemma NumStatesThatCanReach_returns :
  (dest_state < NumStates fst)%nat ->
  exists l, NumStatesThatCanReach fst dest_state = Ok (length l) /\
            NoDup l /\
            (forall s, s ∈ l <-> (s < NumStates fst)%nat /\ reaches fst s dest_state) /\
            (1 <= length l <= NumStates fst)%nat.
Proof.
  intros Hd. unfold NumStatesThatCanReach.
  rewrite bool_decide_eq_true_2 by done. simpl.
  set (st := {| queue := [dest_state];
                can_reach := <[dest_state:=true]> (replicate (NumStates fst) false);
                num_states_can_reach := 1 |}).
  assert (Hlook : replicate (NumStates fst) false !! dest_state = Some false)
    by by apply lookup_replicate_2.
  destruct (search_loop_spec (NumStates fst) st) as (st' & -> & Hinv & Hq).
  { unfold search_inv, marked; simpl. rewrite length_insert, length_replicate.
    rewrite (count_true_insert _ _ Hlook), count_true_replicate.
    assert (Hmarked : forall s,
      <[dest_state:=true]> (replicate (NumStates fst) false) !! s = Some true ->
      s = dest_state).
    { intros s Hs. destruct (decide (s = dest_state)) as [|Hne]; [done|].
      rewrite list_lookup_insert_ne in Hs by done.
      by apply lookup_replicate_1 in Hs as [? _]. }
    repeat split.
    - apply list_lookup_insert_eq. by rewrite length_replicate.
    - intros s ->%list_elem_of_singleton.
      apply list_lookup_insert_eq. by rewrite length_replicate.
    - intros s ->%Hmarked. apply rtc_refl.
    - intros s p ->%Hmarked Hnq. exfalso. apply Hnq, list_elem_of_here. }
  { simpl. rewrite (count_true_insert _ _ Hlook), count_true_replicate. lia. }
  simpl. pose proof Hinv as (Hlen & Hnum & Hmd & _ & Hsound & _).
  pose proof (count_true_le (can_reach st')).
  assert (Hin : forall s, s ∈ true_from 0 (can_reach st') <-> marked st' s).
  { intros s. rewrite elem_of_true_from. split; [by intros (j & -> & ?)|].
    intros Hs. by exists s. }
  assert (1 <= count_true (can_reach st'))%nat.
  { rewrite <- (length_true_from 0). apply Hin in Hmd.
    destruct (true_from 0 (can_reach st')); [by apply elem_of_nil in Hmd | simpl; lia]. }
  rewrite Hnum, !bool_decide_eq_true_2 by lia. simpl.
  exists (true_from 0 (can_reach st')). rewrite length_true_from.
  repeat split; try lia; try done.
  - apply NoDup_true_from.
  - rewrite <- Hlen. by eapply lookup_lt_Some, Hin.
  - apply Hsound. by apply Hin.
  - intros [_ Hr]. apply Hin. by apply search_inv_complete.
Qed.

End Search.

(** ** ComputeSpecialState *)

Lemma candidate_pairs_eq initial_probs :
  candidate_pairs initial_probs =
  replicate (length initial_probs) (Flt.zero, 0%nat) ++ real_pairs initial_probs.
Proof.
  unfold candidate_pairs, real_pairs.
  generalize (replicate (length initial_probs) (Flt.zero, 0%nat)).
  generalize (seq 0 (length initial_probs)).
  induction l as [|i l IH]; intros init; simpl; [by rewrite app_nil_r|].
  by rewrite IH, <- app_assoc.
Qed.

Lemma length_candidate_pairs initial_probs :
  length (candidate_pairs initial_probs) = (2 * length initial_probs)%nat.
Proof.
  rewrite candidate_pairs_eq. unfold real_pairs.
  rewrite length_app, length_replicate, length_map, length_seq. lia.
Qed.

Lemma insert_sorted_perm x l : insert_sorted x l ≡ₚ x :: l.
Proof.
  induction l as [|y l IH]; simpl; [done|].
  destruct (pair_ltb x y); [done|]. rewrite IH. apply perm_swap.
Qed.

Lemma sort_perm l : sort l ≡ₚ l.
Proof.
  induction l as [|x l IH]; simpl; [done|].
  by rewrite insert_sorted_perm, IH.
Qed.

Lemma length_scanned initial_probs : length (scanned initial_probs) = length initial_probs.
Proof.
  unfold scanned. rewrite length_fmap, length_take_le; [done|].
  rewrite sort_perm, length_candidate_pairs. lia.
Qed.

(** Every candidate that is examined is a state of the automaton. *)
Lemma scanned_in_range initial_probs c :
  c ∈ scanned initial_probs -> (c < length initial_probs)%nat.
Proof.
  unfold scanned. intros (x & -> & Hx)%list_elem_of_fmap.
  apply subseteq_take in Hx. rewrite sort_perm, candidate_pairs_eq in Hx.
  apply elem_of_app in Hx as [Hx|Hx].
  - apply elem_of_replicate in Hx as [-> Hn]. simpl. lia.
  - unfold real_pairs in Hx. apply list_elem_of_fmap in Hx as (i & -> & Hi).
    apply elem_of_seq in Hi. simpl. lia.
Qed.

(** When every candidate is rejected the scan ends in the fatal error. *)
Lemma scan_all_rejected fst threshold cands :
  (forall c, c ∈ cands ->
     exists n, NumStatesThatCanReach fst c = Ok n /\ (n < threshold)%nat) ->
  scan fst threshold cands = KaldiErr.
Proof.
  induction cands as [|c cands IH]; intros Hrej; simpl; [done|].
  destruct (Hrej c) as (n & -> & Hn); [apply list_elem_of_here|]. simpl.
  rewrite (proj2 (Nat.ltb_lt _ _)) by done.
  apply IH. intros c' Hc'. apply Hrej. by apply list_elem_of_further.
Qed.

(** *** Automata in two parts without arcs between them *)

Lemma no_crossingb_sound fst side : no_crossingb fst side = true -> no_crossing fst side.
Proof.
  unfold no_crossingb. intros H s a Ha.
  apply elem_of_all_arcs, list_elem_of_In in Ha.
  rewrite forallb_forall in H. apply H in Ha. simpl in Ha.
  by apply eqb_prop in Ha.
Qed.

Lemma side_sizes fst side :
  (side_size fst side true + side_size fst side false)%nat = NumStates fst.
Proof.
  unfold side_size.
  assert (Hsplit : forall l : list nat,
    (length (List.filter (fun s => Bool.eqb (side s) true) l) +
     length (List.filter (fun s => Bool.eqb (side s) false) l))%nat = length l).
  { induction l as [|s l IH]; simpl; [done|]. destruct (side s); simpl; lia. }
  by rewrite Hsplit, length_seq.
Qed.

Lemma reaches_same_side fst side s d :
  no_crossing fst side -> reaches fst s d -> side s = side d.
Proof.
  intros Hno. induction 1 as [|x y z (a & Ha & <-) _ IH]; [done|].
  rewrite <- IH. symmetry. by apply Hno.
Qed.

(** A state is reached from states of its own side only. *)
Lemma reach_count_side fst side d :
  no_crossing fst side ->
  (d < NumStates fst)%nat ->
  exists n, NumStatesThatCanReach fst d = Ok n /\ (n <= side_size fst side (side d))%nat.
Proof.
  intros Hno Hd.
  destruct (NumStatesThatCanReach_returns fst d Hd) as (l & -> & Hnd & Hl & _).
  eexists; split; [done|]. unfold side_size.
  apply submseteq_length, NoDup_submseteq; [done|].
  intros s [Hs Hr]%Hl. apply list_elem_of_In, filter_In. split.
  - apply in_seq. lia.
  - rewrite (reaches_same_side fst side s d Hno Hr). by destruct (side d).
Qed.

(** *** The candidates that the scan examines *)

Lemma insert_sorted_app_l x A B :
  (forall b, b ∈ B -> pair_ltb x b = true) ->
  insert_sorted x (A ++ B) = insert_sorted x A ++ B.
Proof.
  intros HB. induction A as [|a A IH]; simpl.
  - destruct B as [|b B]; [done|]. simpl.
    by rewrite HB by apply list_elem_of_here.
  - destruct (pair_ltb x a); [done|]. by rewrite IH.
Qed.

Lemma insert_sorted_app_r x A B :
  (forall a, a ∈ A -> pair_ltb x a = false) ->
  insert_sorted x (A ++ B) = A ++ insert_sorted x B.
Proof.
  induction A as [|a A IH]; intros HA; simpl; [done|].
  rewrite HA by apply list_elem_of_here.
  rewrite IH; [done|]. intros a' Ha'. apply HA. by apply list_elem_of_further.
Qed.

(** When the elements with [P] all come before the others in the order,
    sorting sorts the two groups apart. *)
Lemma sort_split (P : BaseFloat * nat -> bool) l :
  (forall x y, x ∈ l -> y ∈ l -> P x = true -> P y = false ->
     pair_ltb x y = true /\ pair_ltb y x = false) ->
  sort l = sort (List.filter P l) ++ sort (List.filter (fun x => negb (P x)) l).
Proof.
  induction l as [|x l IH]; intros Hord; [done|]. simpl.
  rewrite IH by (intros; apply Hord; auto using list_elem_of_further).
  destruct (P x) eqn:HP; simpl.
  - apply insert_sorted_app_l. intros b Hb. rewrite sort_perm in Hb.
    apply list_elem_of_In, filter_In in Hb as [Hb HPb].
    apply Hord; [apply list_elem_of_here| |done|by destruct (P b)].
    by apply list_elem_of_further, list_elem_of_In.
  - apply insert_sorted_app_r. intros a Ha. rewrite sort_perm in Ha.
    apply list_elem_of_In, filter_In in Ha as [Ha HPa].
    apply Hord; [|apply list_elem_of_here|done|done].
    by apply list_elem_of_further, list_elem_of_In.
Qed.

Lemma filter_map_comm {A B} (P : B -> bool) (f : A -> B) l :
  List.filter P (map f l) = map f (List.filter (fun a => P (f a)) l).
Proof.
  induction l as [|a l IH]; simpl; [done|]. rewrite IH. by destruct (P (f a)).
Qed.

Lemma filter_length_split {A} (P : A -> bool) l :
  (length (List.filter P l) + length (List.filter (fun x => negb (P x)) l))%nat = length l.
Proof. induction l as [|a l IH]; simpl; [done|]. destruct (P a); simpl; lia. Qed.

(** A number [>= 0] is a zero, or its opposite is below zero. *)
Lemma nonneg_cases v :
  Flt.leb Flt.zero v = true ->
  (SFeqb v Flt.zero = true /\ Flt.ltb (Flt.opp v) Flt.zero = false /\
   exists s, Flt.opp v = S754_zero s) \/
  (SFeqb v Flt.zero = false /\ Flt.ltb (Flt.opp v) Flt.zero = true).
Proof.
  destruct v as [s|[]| |[] m e]; try discriminate; intros _; [left|right|right].
  - repeat split; eauto.
  - done.
  - done.
Qed.

Lemma neg_before_zero a s :
  Flt.ltb a Flt.zero = true ->
  Flt.ltb a (S754_zero s) = true /\ Flt.ltb (S754_zero s) a = false.
Proof. destruct a as [?|[]| |[] m e]; try discriminate; done. Qed.

(** The first component of a candidate is a zero or is below zero. *)
Lemma candidate_first initial_probs x :
  probs_nonneg initial_probs ->
  x ∈ candidate_pairs initial_probs ->
  (is_neg x = false /\ exists s, x.1 = S754_zero s) \/ is_neg x = true.
Proof.
  intros Hp. rewrite candidate_pairs_eq.
  intros [Hx|Hx]%elem_of_app.
  - apply elem_of_replicate in Hx as [-> _]. left. split; [done|]. by exists false.
  - unfold real_pairs in Hx. apply list_elem_of_fmap in Hx as (i & -> & Hi).
    apply elem_of_seq in Hi. unfold is_neg. simpl.
    destruct (lookup_lt_is_Some_2 initial_probs i) as [v Hv]; [lia|].
    rewrite Hv. simpl.
    unfold probs_nonneg in Hp. rewrite Forall_forall in Hp.
    destruct (nonneg_cases v) as [(_ & ? & ?)|[_ ?]]; auto.
    apply Hp. by eapply list_elem_of_lookup_2.
Qed.

(** The pushed pairs that are not below zero are those of the states of
    probability zero. *)
Lemma nonneg_real_pairs initial_probs :
  probs_nonneg initial_probs ->
  List.filter (fun x => negb (is_neg x)) (real_pairs initial_probs) =
  map (fun i => (Flt.opp (default Flt.zero (initial_probs !! i)), i))
      (zero_prob_states initial_probs).
Proof.
  intros Hp. unfold real_pairs, zero_prob_states. rewrite filter_map_comm. f_equal.
  apply filter_ext_in. intros i Hi. apply in_seq in Hi.
  unfold is_neg, zero_prob. simpl.
  destruct (lookup_lt_is_Some_2 initial_probs i) as [v Hv]; [lia|].
  rewrite Hv. simpl. unfold probs_nonneg in Hp. rewrite Forall_forall in Hp.
  destruct (nonneg_cases v) as [(-> & -> & _)|[-> ->]]; auto.
  apply Hp. by eapply list_elem_of_lookup_2.
Qed.

(** The sorted candidates: the pairs below zero, then the pairs [(0, 0)],
    then the other pairs of probability zero. *)
Lemma sort_candidates initial_probs :
  probs_nonneg initial_probs ->
  exists B C,
    sort (candidate_pairs initial_probs) = sort (positive_pairs initial_probs) ++ B ++ C /\
    (length initial_probs <= length B)%nat /\
    Forall (fun x => x.2 = 0%nat) B.
Proof.
  intros Hp.
  set (pairs := candidate_pairs initial_probs).
  set (Z := List.filter (fun x => negb (is_neg x)) pairs).
  exists (sort (List.filter is_state0 Z)),
         (sort (List.filter (fun x => negb (is_state0 x)) Z)).
  assert (Hneg : List.filter is_neg pairs = positive_pairs initial_probs).
  { unfold pairs. rewrite candidate_pairs_eq, List.filter_app.
    replace (List.filter is_neg (replicate _ _)) with (@nil (BaseFloat * nat)); [done|].
    induction (length initial_probs); simpl; auto. }
  assert (HZ : forall x, x ∈ Z -> x ∈ pairs /\ exists s, x.1 = S754_zero s).
  { intros x Hx. apply list_elem_of_In, filter_In in Hx as [Hx Hn].
    apply list_elem_of_In in Hx. split; [done|].
    destruct (candidate_first initial_probs x Hp Hx) as [[_ ?]|Hn']; [done|].
    by rewrite Hn' in Hn. }
  repeat split.
  - rewrite <- Hneg. rewrite (sort_split is_neg pairs).
    + f_equal. fold Z. apply (sort_split is_state0 Z).
      intros x y (_ & sx & Hx)%HZ (_ & sy & Hy)%HZ Hx0 Hy0.
      unfold pair_ltb, is_state0 in *. rewrite Hx, Hy.
      apply Nat.eqb_eq in Hx0. apply Nat.eqb_neq in Hy0. rewrite Hx0. simpl.
      split; [apply Nat.ltb_lt; lia | apply Nat.ltb_ge; lia].
    + intros x y Hx Hy Hxn Hyn.
      destruct (candidate_first initial_probs y Hp Hy) as [[_ [s Hs]]|Hn'];
        [|congruence].
      unfold pair_ltb, is_neg in *. rewrite Hs.
      destruct (neg_before_zero x.1 s Hxn) as [-> ->]. done.
  - rewrite sort_perm. unfold Z, pairs.
    rewrite candidate_pairs_eq, !List.filter_app, length_app.
    assert (Hrep : forall n, length (List.filter is_state0
              (List.filter (fun x => negb (is_neg x)) (replicate n (Flt.zero, 0%nat)))) = n).
    { induction n; simpl; auto. }
    rewrite Hrep. lia.
  - apply Forall_forall. intros x Hx. rewrite sort_perm in Hx.
    apply list_elem_of_In, filter_In in Hx as [_ Hx].
    by apply Nat.eqb_eq in Hx.
Qed.

(** The candidates that the scan examines when no probability is negative:
    the states of positive probability in the order of the sort, then
    state 0 once for every state of probability zero. *)
Lemma scanned_eq initial_probs :
  probs_nonneg initial_probs ->
  scanned initial_probs =
  (sort (positive_pairs initial_probs)).*2 ++
  replicate (length (zero_prob_states initial_probs)) 0%nat.
Proof.
  intros Hp. unfold scanned.
  destruct (sort_candidates initial_probs Hp) as (B & C & -> & HB & HB0).
  pose proof (filter_length_split is_neg (real_pairs initial_probs)) as Hsplit.
  rewrite nonneg_real_pairs, length_map in Hsplit by done.
  fold (positive_pairs initial_probs) in Hsplit.
  unfold real_pairs in Hsplit. rewrite length_map, length_seq in Hsplit.
  assert (Hlen : length (sort (positive_pairs initial_probs)) =
                 length (positive_pairs initial_probs)) by by rewrite sort_perm.
  rewrite take_app, fmap_app, take_ge by lia. f_equal.
  rewrite Hlen, take_app_le by lia.
  replace (length initial_probs - length (positive_pairs initial_probs))%nat
    with (length (zero_prob_states initial_probs)) by lia.
  assert (HB' : B.*2 = replicate (length B) 0%nat).
  { clear HB. induction HB0 as [|x B Hx _ IH]; [done|]. by rewrite fmap_cons, IH, Hx. }
  rewrite fmap_take, HB', take_replicate. f_equal. lia.
Qed.

(** ** SetInitialProbs *)

Lemma ltb_antisym x y : Flt.ltb x y = true -> Flt.ltb y x = false.
Proof.
  unfold Flt.ltb, SFltb.
  destruct x as [sx|sx| |sx mx ex], y as [sy|sy| |sy my ey]; simpl; try done;
    destruct sx, sy; simpl; try done;
    rewrite (Z.compare_antisym ex ey); destruct (ex ?= ey)%Z; simpl; try done;
    pose proof (Pos.compare_cont_antisym mx my Eq) as Hanti; simpl in Hanti;
    rewrite <- Hanti; destruct (Pos.compare_cont Eq mx my); simpl; done.
Qed.

Lemma leb_zero_not_positive x : Flt.leb x Flt.zero = true -> Flt.ltb Flt.zero x = false.
Proof. destruct x as [?|[]| |[] m e]; done. Qed.

Section SetInitialProbsFacts.

Variable exp : spec_float -> spec_float.

Lemma normalizing_state_unfold fst nf s :
  normalizing_state exp fst nf s =
  if mass_ok (tot_prob exp fst s)
  then Ok (<[s := Flt.div Flt.one (tot_prob exp fst s)]> nf)
  else AssertFailed.
Proof. unfold normalizing_state, mass_ok. by destruct (_ && _). Qed.

(** A state whose total mass is not in the open interval from 0 to 100
    trips the assertion of the first loop. *)
Lemma normalizing_factors_bad_mass fst s :
  (s < NumStates fst)%nat ->
  mass_ok (tot_prob exp fst s) = false ->
  normalizing_factors exp fst = AssertFailed.
Proof.
  intros Hs Hbad. unfold normalizing_factors.
  apply (foldM_assert _ (fun s => mass_ok (tot_prob exp fst s))
           (fun nf s => <[s := Flt.div Flt.one (tot_prob exp fst s)]> nf)).
  - intros s' nf. apply normalizing_state_unfold.
  - exists s. split; [|done]. apply elem_of_seq. lia.
Qed.

(** [SetTransitions] returns its tables or fails an assertion. *)
Lemma SetTransitions_outcome fst num_pdfs :
  (exists t, SetTransitions exp fst num_pdfs = Ok t) \/
  SetTransitions exp fst num_pdfs = AssertFailed.
Proof.
  unfold SetTransitions. rewrite collect_transitions_unfold.
  destruct (forallb (fun x : nat * StdArc => label_ok num_pdfs x.2) (all_arcs fst)) eqn:E.
  - left. rewrite (foldM_pure _ (push_both exp)).
    + simpl. destruct (fold_left _ _ _) as [o i].
      destruct (flatten o []) as [rf t1]. destruct (flatten i t1) as [rb t2]. eauto.
    + intros x acc Hx. rewrite transitions_arc_unfold.
      rewrite forallb_forall in E. by rewrite E by by apply list_elem_of_In.
  - right. rewrite (foldM_assert _ (fun x : nat * StdArc => label_ok num_pdfs x.2)
                      (push_both exp)); [done| |].
    + intros x acc. apply transitions_arc_unfold.
    + by apply forallb_false.
Qed.

End SetInitialProbsFacts.

(** ** The results depend on [exp] through the weights of the automaton only *)

Lemma fold_left_ext_in {A B} (f g : B -> A -> B) l b :
  (forall a b', a ∈ l -> f b' a = g b' a) -> fold_left f l b = fold_left g l b.
Proof.
  revert b; induction l as [|a l IH]; intros b Hfg; simpl; [done|].
  rewrite (Hfg a b) by apply list_elem_of_here.
  apply IH. intros; apply Hfg; by apply list_elem_of_further.
Qed.

Section ExpAgree.

Variables (exp1 exp2 : spec_float -> spec_float) (fst : StdVectorFst).

Hypothesis agree_arcs :
  forall s a, a ∈ Arcs fst s -> exp1 (Flt.opp (weight a)) = exp2 (Flt.opp (weight a)).
Hypothesis agree_final :
  forall s, (s < NumStates fst)%nat ->
    exp1 (Flt.opp (Final fst s)) = exp2 (Flt.opp (Final fst s)).

Lemma tot_prob_agree s : (s < NumStates fst)%nat -> tot_prob exp1 fst s = tot_prob exp2 fst s.
Proof.
  intros Hs. unfold tot_prob. rewrite (agree_final s Hs).
  apply fold_left_ext_in. intros a tot Ha. by rewrite (agree_arcs s a Ha).
Qed.

Lemma normalizing_factors_agree : normalizing_factors exp1 fst = normalizing_factors exp2 fst.
Proof.
  unfold normalizing_factors. apply foldM_ext. intros s nf Hs.
  apply elem_of_seq in Hs. unfold normalizing_state.
  rewrite tot_prob_agree by lia. done.
Qed.

Lemma propagate_agree nf st : propagate exp1 fst nf st = propagate exp2 fst nf st.
Proof.
  destruct st as [[cur next] avg]. unfold propagate.
  replace (fold_left (propagate_state exp1 fst nf cur) (seq 0 (NumStates fst)) next)
    with (fold_left (propagate_state exp2 fst nf cur) (seq 0 (NumStates fst)) next);
    [done|].
  apply fold_left_ext_in. intros s next' _. unfold propagate_state.
  apply fold_left_ext_in. intros a next'' Ha. unfold propagate_arc.
  by rewrite (agree_arcs s a Ha).
Qed.

Lemma average_probs_agree nf : average_probs exp1 fst nf = average_probs exp2 fst nf.
Proof.
  unfold average_probs. f_equal.
  induction (Z.to_nat num_iters) as [|n IH]; simpl; [done|].
  by rewrite IH, propagate_agree.
Qed.

Lemma SetInitialProbs_agree : SetInitialProbs exp1 fst = SetInitialProbs exp2 fst.
Proof.
  unfold SetInitialProbs. rewrite normalizing_factors_agree.
  destruct (normalizing_factors exp2 fst) as [nf| | |]; try reflexivity.
  cbv beta iota delta [mbind result_bind].
  rewrite average_probs_agree. reflexivity.
Qed.

Lemma SetTransitions_agree num_pdfs :
  SetTransitions exp1 fst num_pdfs = SetTransitions exp2 fst num_pdfs.
Proof.
  unfold SetTransitions, collect_transitions. f_equal.
  apply foldM_ext. intros s acc _. unfold transitions_state.
  apply foldM_ext. intros a [o i] Ha. unfold transitions_arc.
  by rewrite (agree_arcs s a Ha).
Qed.

Lemma DenominatorGraph_agree num_pdfs :
  DenominatorGraph exp1 fst num_pdfs = DenominatorGraph exp2 fst num_pdfs.
Proof.
  unfold DenominatorGraph. by rewrite SetTransitions_agree, SetInitialProbs_agree.
Qed.

End ExpAgree.

Section Exp01.

Variables (exp : spec_float -> spec_float) (fst : StdVectorFst).
Hypothesis exact : exp_exact exp.
Hypothesis weights : weights01 fst = true.

Lemma exp01_agree w : is01 w = true -> exp (Flt.opp w) = exp01 (Flt.opp w).
Proof. destruct exact. destruct w as [[]|[]| |]; try discriminate; done. Qed.

Lemma exp01_agree_arcs s a :
  a ∈ Arcs fst s -> exp (Flt.opp (weight a)) = exp01 (Flt.opp (weight a)).
Proof.
  intros Ha. apply exp01_agree.
  pose proof weights as [H _]%andb_prop. rewrite forallb_forall in H.
  by apply (H (s, a)), list_elem_of_In, elem_of_all_arcs.
Qed.

Lemma exp01_agree_final s :
  (s < NumStates fst)%nat -> exp (Flt.opp (Final fst s)) = exp01 (Flt.opp (Final fst s)).
Proof.
  intros Hs. apply exp01_agree.
  pose proof weights as [_ H]%andb_prop. rewrite forallb_forall in H.
  unfold Final. destruct (states fst !! s) as [st|] eqn:E; [|done].
  by apply H, list_elem_of_In, list_elem_of_lookup_2 with s.
Qed.

Lemma SetInitialProbs_exp01 : SetInitialProbs exp fst = SetInitialProbs exp01 fst.
Proof. apply SetInitialProbs_agree; [exact exp01_agree_arcs | exact exp01_agree_final]. Qed.

Lemma DenominatorGraph_exp01 num_pdfs :
  DenominatorGraph exp fst num_pdfs = DenominatorGraph exp01 fst num_pdfs.
Proof. apply DenominatorGraph_agree; [exact exp01_agree_arcs | exact exp01_agree_final]. Qed.

End Exp01.

Lemma exp01_exact : exp_exact exp01.
Proof. by split. Qed.


(** * The properties of the specification *)

Section Claims.

Variable exp : spec_float -> spec_float.

(** C1.  For a well-formed automaton with valid labels (whose records an
    [int32] can count), the range of state [s] in the forward table
    delimits exactly the records of the out-arcs of [s], one per arc in the
    order of the arcs, with pdf-id [ilabel - 1], the destination as
    [hmm_state] and [exp(-weight)] as probability; the range of [s] in the
    backward table delimits exactly the records of the arcs into [s], with
    the same pdf-id and probability and the source as [hmm_state]. *)
Theorem SetTransitions_ranges fst num_pdfs :
  fst_wf fst ->
  labels_valid fst num_pdfs ->
  2 * Z.of_nat (num_arcs fst) <= INT32_MAX ->
  exists t, SetTransitions exp fst num_pdfs = Ok t /\
    forall s, (s < NumStates fst)%nat ->
      exists rf rb,
        forward_transitions_ t !! s = Some rf /\
        backward_transitions_ t !! s = Some rb /\
        slice rf (transitions_ t) = map (forward_record exp) (Arcs fst s) /\
        slice rb (transitions_ t) = map (backward_record exp) (in_arcs fst s).
Proof.
  intros Hwf Hlab Hfit.
  destruct (SetTransitions_ok exp fst num_pdfs Hwf Hlab Hfit)
    as (t & Ht & _ & _ & _ & _ & _ & Hranges).
  exists t. split; [done|]. exact Hranges.
Qed.

(** C7.  The record array is the forward buckets in the order of the
    states followed by the backward buckets in the order of the states;
    the forward ranges are half-open ranges with [begin <= end] that abut
    and cover [0, num_arcs), the backward ranges likewise cover
    [num_arcs, 2 * num_arcs). *)
Theorem SetTransitions_layout fst num_pdfs :
  fst_wf fst ->
  labels_valid fst num_pdfs ->
  2 * Z.of_nat (num_arcs fst) <= INT32_MAX ->
  exists t, SetTransitions exp fst num_pdfs = Ok t /\
    transitions_ t = concat (map (forward_bucket exp fst) (seq 0 (NumStates fst))) ++
                     concat (map (backward_bucket exp fst) (seq 0 (NumStates fst))) /\
    length (forward_transitions_ t) = NumStates fst /\
    length (backward_transitions_ t) = NumStates fst /\
    tiles (forward_transitions_ t) 0 (Z.of_nat (num_arcs fst)) /\
    tiles (backward_transitions_ t) (Z.of_nat (num_arcs fst))
          (2 * Z.of_nat (num_arcs fst)).
Proof.
  intros Hwf Hlab Hfit.
  destruct (SetTransitions_ok exp fst num_pdfs Hwf Hlab Hfit)
    as (t & Ht & H1 & H2 & H3 & H4 & H5 & _).
  exists t. repeat split; done.
Qed.

(** C5.  An arc whose label minus one is negative or not below [num_pdfs]
    makes [SetTransitions] fail its assertion, and the constructor returns
    no object. *)
Theorem DenominatorGraph_bad_label fst num_pdfs s a :
  fst_wf fst ->
  a ∈ Arcs fst s ->
  ilabel a - 1 < 0 \/ num_pdfs <= ilabel a - 1 ->
  SetTransitions exp fst num_pdfs = AssertFailed /\
  DenominatorGraph exp fst num_pdfs = AssertFailed.
Proof.
  intros _ Ha Hbad.
  assert (H : SetTransitions exp fst num_pdfs = AssertFailed).
  { unfold SetTransitions.
    by rewrite (collect_transitions_bad_label exp fst num_pdfs s a Ha Hbad). }
  split; [done|]. unfold DenominatorGraph. by rewrite H.
Qed.

(** C6.  A state whose total mass [tot_prob] is at most 0 or above 100
    makes [SetInitialProbs] fail its assertion, and the constructor returns
    no object. *)
Theorem SetInitialProbs_bad_mass fst s :
  fst_wf fst ->
  (s < NumStates fst)%nat ->
  Flt.leb (tot_prob exp fst s) Flt.zero = true \/
  Flt.ltb Flt.hundred (tot_prob exp fst s) = true ->
  SetInitialProbs exp fst = AssertFailed /\
  forall num_pdfs, DenominatorGraph exp fst num_pdfs = AssertFailed.
Proof.
  intros _ Hs Hbad.
  assert (Hnf : normalizing_factors exp fst = AssertFailed).
  { apply (normalizing_factors_bad_mass exp fst s Hs). unfold mass_ok.
    apply andb_false_iff. destruct Hbad as [H|H].
    - left. by apply leb_zero_not_positive.
    - right. by apply ltb_antisym. }
  assert (H : SetInitialProbs exp fst = AssertFailed).
  { unfold SetInitialProbs. by rewrite Hnf. }
  split; [done|]. intros num_pdfs. unfold DenominatorGraph. rewrite H.
  by destruct (SetTransitions_outcome exp fst num_pdfs) as [[t ->]| ->].
Qed.

(** C8.  For the automaton of a single state without arcs, whatever its
    final weight, if the mass of the state passes the assertion then the
    initial probability that [SetInitialProbs] returns for the state is a
    NaN, not 1: the first propagation leaves no mass and the
    renormalisation divides by the zero total. *)
Theorem SetInitialProbs_single_state w :
  mass_ok (exp (Flt.opp w)) = true ->
  SetInitialProbs exp (single_state w) = Ok ([Flt.nan], 0%nat) /\
  exists g, DenominatorGraph exp (single_state w) 1 = Ok g /\
            initial_probs_ g = [Flt.nan].
Proof.
  intros Hmass.
  assert (Hprobs : SetInitialProbs exp (single_state w) = Ok ([Flt.nan], 0%nat));
    [|split; [done|]; unfold DenominatorGraph; rewrite Hprobs; by eexists].
  assert (Hnf : normalizing_factors exp (single_state w) =
                Ok [Flt.div Flt.one (exp (Flt.opp w))]).
  { unfold normalizing_factors.
    change (foldM _ _ _) with
      (nf ← normalizing_state exp (single_state w) (Vec.zeros 1) 0%nat; Ok nf).
    rewrite normalizing_state_unfold.
    change (tot_prob exp (single_state w) 0) with (exp (Flt.opp w)).
    by rewrite Hmass. }
  unfold SetInitialProbs. rewrite Hnf.
  cbv beta iota delta [mbind result_bind].
  generalize (Flt.div Flt.one (exp (Flt.opp w))). intros x.
  vm_compute. reflexivity.
Qed.

(** C2.  On the chain of two states every state has the mass 1, the
    constructor returns an object, and its initial probabilities are NaNs:
    they are not [>= 0]. *)
Theorem SetInitialProbs_chain :
  exp_exact exp ->
  tot_prob exp chain2 0 = Flt.one /\
  tot_prob exp chain2 1 = Flt.one /\
  (exists g, DenominatorGraph exp chain2 1 = Ok g /\
             initial_probs_ g = [Flt.nan; Flt.nan]) /\
  Flt.leb Flt.zero Flt.nan = false.
Proof.
  intros Hexp.
  assert (Hw : weights01 chain2 = true) by reflexivity.
  pose proof (tot_prob_agree exp exp01 chain2
                (exp01_agree_arcs exp chain2 Hexp Hw)
                (exp01_agree_final exp chain2 Hexp Hw)) as Htot.
  rewrite (Htot 0%nat), (Htot 1%nat) by (vm_compute; lia).
  rewrite (DenominatorGraph_exp01 exp chain2 Hexp Hw).
  repeat split; try (vm_compute; reflexivity).
  eexists. split; [vm_compute; reflexivity | reflexivity].
Qed.

(** C3.  On [fst8] the states ranked by initial probability are
    1, 0, 2, ..., 7; state 2 is reached from 6 of the 8 states, which is
    the threshold, so that the scan of the ranked states selects it; but
    [ComputeSpecialState] examines state 1 and then state 0 seven times,
    and the construction ends in the fatal error. *)
Theorem ComputeSpecialState_misses_anchor :
  exp_exact exp ->
  ranked_states probs8 = [1; 0; 2; 3; 4; 5; 6; 7]%nat /\
  NumStatesThatCanReach fst8 2 = Ok 6%nat /\
  min_states_can_reach 8 = 6%nat /\
  select_by_rank fst8 probs8 = Ok 2%nat /\
  scanned probs8 = [1; 0; 0; 0; 0; 0; 0; 0]%nat /\
  ComputeSpecialState fst8 probs8 = KaldiErr /\
  map Flt.to_single (average_probs exp fst8 (replicate 8 Flt.one)) = probs8 /\
  DenominatorGraph exp fst8 1 = KaldiErr.
Proof.
  intros Hexp.
  assert (Hw : weights01 fst8 = true) by reflexivity.
  rewrite (DenominatorGraph_exp01 exp fst8 Hexp Hw).
  rewrite (average_probs_agree exp exp01 fst8 (exp01_agree_arcs exp fst8 Hexp Hw)).
  repeat split; vm_compute; reflexivity.
Qed.

End Claims.

(** C4.  For a state [dest_state] of a well-formed automaton,
    [NumStatesThatCanReach] returns the number of states from which
    [dest_state] is reached along arcs, [dest_state] included; the number
    is at least 1 and at most the number of states, and it is the number of
    states when the automaton is strongly connected. *)
Theorem NumStatesThatCanReach_counts fst dest_state :
  fst_wf fst ->
  (dest_state < NumStates fst)%nat ->
  exists l,
    NoDup l /\
    (forall s, s ∈ l <-> (s < NumStates fst)%nat /\ reaches fst s dest_state) /\
    NumStatesThatCanReach fst dest_state = Ok (length l) /\
    (1 <= length l <= NumStates fst)%nat /\
    (strongly_connected fst -> length l = NumStates fst).
Proof.
  intros _ Hd.
  destruct (NumStatesThatCanReach_returns fst dest_state Hd) as (l & Hret & Hnd & Hl & Hb).
  exists l. repeat split; try done; try lia; try (by apply Hl).
  intros Hsc.
  transitivity (length (seq 0 (NumStates fst))); [|by rewrite length_seq].
  apply Permutation_length, NoDup_Permutation; [done|apply NoDup_seq|].
  intros s. rewrite Hl, elem_of_seq. split; [intros [? _]; lia|].
  intros [_ Hs]. split; [lia|]. apply Hsc; lia.
Qed.

(** When the automaton is in two parts of [k >= 2] states each without
    arcs between them, every candidate is reached from at most [k] states,
    fewer than [min_states_can_reach], and [ComputeSpecialState] ends in the
    fatal error. *)
Lemma ComputeSpecialState_two_parts fst side k initial_probs :
  fst_wf fst ->
  length initial_probs = NumStates fst ->
  equal_parts fst side k ->
  (2 <= k)%nat ->
  ComputeSpecialState fst initial_probs = KaldiErr.
Proof.
  intros _ Hlen (Hno & Ht & Hf) Hk. unfold ComputeSpecialState.
  pose proof (side_sizes fst side) as Hn. rewrite Ht, Hf in Hn.
  apply scan_all_rejected. intros c Hc%scanned_in_range.
  destruct (reach_count_side fst side c Hno) as (n & Hret & Hle); [lia|].
  exists n. split; [done|].
  assert (n <= k)%nat by (destruct (side c); lia).
  unfold min_states_can_reach. rewrite Hlen, <- Hn.
  apply Nat.div_le_lower_bound; lia.
Qed.

(** C10.  [pairs] holds twice [num_states] entries and the scan examines
    the first [num_states] of the sorted pairs; when no initial probability
    is negative or a NaN these are the states of positive probability in the
    order of the sort, followed by state 0 once for every state of
    probability zero, and a state of probability zero other than state 0 is
    never examined. *)
Theorem scanned_candidates fst initial_probs :
  probs_nonneg initial_probs ->
  length (candidate_pairs initial_probs) = (2 * length initial_probs)%nat /\
  length (scanned initial_probs) = length initial_probs /\
  ComputeSpecialState fst initial_probs =
    scan fst (min_states_can_reach (length initial_probs))
         (take (length initial_probs) (sort (candidate_pairs initial_probs))).*2 /\
  scanned initial_probs =
    (sort (positive_pairs initial_probs)).*2 ++
    replicate (length (zero_prob_states initial_probs)) 0%nat /\
  forall j, j ∈ zero_prob_states initial_probs -> j <> 0%nat ->
            j ∉ scanned initial_probs.
Proof.
  intros Hp. split; [apply length_candidate_pairs|].
  split; [apply length_scanned|]. split; [done|].
  split; [by apply scanned_eq|].
  intros j Hj Hj0. rewrite scanned_eq by done.
  intros [Hin|Hin]%elem_of_app.
  - apply list_elem_of_fmap in Hin as (x & -> & Hx). rewrite sort_perm in Hx.
    apply list_elem_of_In, filter_In in Hx as [Hx Hneg].
    apply in_map_iff in Hx as (i & <- & Hi).
    apply list_elem_of_In, filter_In in Hj as [_ Hz]. simpl in *.
    unfold is_neg, zero_prob in *. simpl in Hneg.
    destruct (default Flt.zero (initial_probs !! i)) as [?|[]| |[] m e];
      discriminate.
  - apply elem_of_replicate in Hin as [? _]. done.
Qed.

(** ** The properties on concrete automata *)

Lemma SetTransitions_ranges_fst2 :
  exists t, SetTransitions exp01 fst2 1 = Ok t /\
    forall s, (s < NumStates fst2)%nat ->
      exists rf rb,
        forward_transitions_ t !! s = Some rf /\
        backward_transitions_ t !! s = Some rb /\
        slice rf (transitions_ t) = map (forward_record exp01) (Arcs fst2 s) /\
        slice rb (transitions_ t) = map (backward_record exp01) (in_arcs fst2 s).
Proof.
  apply (SetTransitions_ranges exp01 fst2 1).
  - apply fst_wfb_sound. reflexivity.
  - apply labels_validb_sound. reflexivity.
  - apply Z.leb_le. reflexivity.
Defined.

Lemma SetTransitions_layout_fst2 :
  exists t, SetTransitions exp01 fst2 1 = Ok t /\
    transitions_ t = concat (map (forward_bucket exp01 fst2) (seq 0 (NumStates fst2))) ++
                     concat (map (backward_bucket exp01 fst2) (seq 0 (NumStates fst2))) /\
    length (forward_transitions_ t) = NumStates fst2 /\
    length (backward_transitions_ t) = NumStates fst2 /\
    tiles (forward_transitions_ t) 0 (Z.of_nat (num_arcs fst2)) /\
    tiles (backward_transitions_ t) (Z.of_nat (num_arcs fst2))
          (2 * Z.of_nat (num_arcs fst2)).
Proof.
  apply (SetTransitions_layout exp01 fst2 1).
  - apply fst_wfb_sound. reflexivity.
  - apply labels_validb_sound. reflexivity.
  - apply Z.leb_le. reflexivity.
Defined.

Lemma NumStatesThatCanReach_counts_fst2 :
  exists l,
    NoDup l /\
    (forall s, s ∈ l <-> (s < NumStates fst2)%nat /\ reaches fst2 s 1) /\
    NumStatesThatCanReach fst2 1 = Ok (length l) /\
    (1 <= length l <= NumStates fst2)%nat /\
    (strongly_connected fst2 -> length l = NumStates fst2).
Proof.
  apply (NumStatesThatCanReach_counts fst2 1).
  - apply fst_wfb_sound. reflexivity.
  - vm_compute. lia.
Defined.

Lemma DenominatorGraph_bad_label_epsilon :
  SetTransitions exp01 epsilon_fst 1 = AssertFailed /\
  DenominatorGraph exp01 epsilon_fst 1 = AssertFailed.
Proof.
  apply (DenominatorGraph_bad_label exp01 epsilon_fst 1 0%nat (arc_to 0 0)).
  - apply fst_wfb_sound. reflexivity.
  - apply list_elem_of_here.
  - left. simpl. lia.
Defined.

Lemma SetInitialProbs_bad_mass_massless :
  SetInitialProbs exp01 massless_fst = AssertFailed /\
  forall num_pdfs, DenominatorGraph exp01 massless_fst num_pdfs = AssertFailed.
Proof.
  apply (SetInitialProbs_bad_mass exp01 massless_fst 0%nat).
  - apply fst_wfb_sound. reflexivity.
  - vm_compute. lia.
  - left. reflexivity.
Defined.

Lemma SetInitialProbs_single_state_final0 :
  SetInitialProbs exp01 (single_state Flt.zero) = Ok ([Flt.nan], 0%nat) /\
  exists g, DenominatorGraph exp01 (single_state Flt.zero) 1 = Ok g /\
            initial_probs_ g = [Flt.nan].
Proof.
  apply (SetInitialProbs_single_state exp01 Flt.zero). reflexivity.
Defined.

Lemma SetInitialProbs_chain_exp01 :
  tot_prob exp01 chain2 0 = Flt.one /\
  tot_prob exp01 chain2 1 = Flt.one /\
  (exists g, DenominatorGraph exp01 chain2 1 = Ok g /\
             initial_probs_ g = [Flt.nan; Flt.nan]) /\
  Flt.leb Flt.zero Flt.nan = false.
Proof.
  apply (SetInitialProbs_chain exp01). split; reflexivity.
Defined.

Lemma ComputeSpecialState_misses_anchor_exp01 :
  ranked_states probs8 = [1; 0; 2; 3; 4; 5; 6; 7]%nat /\
  NumStatesThatCanReach fst8 2 = Ok 6%nat /\
  min_states_can_reach 8 = 6%nat /\
  select_by_rank fst8 probs8 = Ok 2%nat /\
  scanned probs8 = [1; 0; 0; 0; 0; 0; 0; 0]%nat /\
  ComputeSpecialState fst8 probs8 = KaldiErr /\
  map Flt.to_single (average_probs exp01 fst8 (replicate 8 Flt.one)) = probs8 /\
  DenominatorGraph exp01 fst8 1 = KaldiErr.
Proof.
  apply (ComputeSpecialState_misses_anchor exp01). split; reflexivity.
Defined.

(** C9.  Two isolated states are two components of one state each.
    State 0 is reached from itself only, from one state of two, which is
    less than 75% of the states; but [min_states_can_reach], the truncation
    of [0.75 * 2] to an [int32], is 1, and [ComputeSpecialState] returns
    state 0 where the claim, and the comment of the source on the threshold,
    have the state rejected and the error raised. *)
Theorem ComputeSpecialState_isolated2 :
  fst_wf isolated2 /\
  equal_parts isolated2 (fun s => s =? 0)%nat 1 /\
  SetInitialProbs exp01 isolated2 = Ok ([one_f; Flt.zero], 0%nat) /\
  NumStatesThatCanReach isolated2 0 = Ok 1%nat /\
  NumStatesThatCanReach isolated2 1 = Ok 1%nat /\
  min_states_can_reach (NumStates isolated2) = 1%nat /\
  ComputeSpecialState isolated2 [one_f; Flt.zero] = Ok 0%nat.
Proof.
  split; [apply fst_wfb_sound; reflexivity|].
  split; [|repeat split; vm_compute; reflexivity].
  split; [apply no_crossingb_sound; reflexivity|]. split; reflexivity.
Qed.

Lemma ComputeSpecialState_two_parts_cycles4 :
  ComputeSpecialState cycles4 [one_f; Flt.zero; Flt.zero; Flt.zero] = KaldiErr.
Proof.
  apply (ComputeSpecialState_two_parts cycles4 (fun s => s <? 2)%nat 2).
  - apply fst_wfb_sound. reflexivity.
  - reflexivity.
  - split; [apply no_crossingb_sound; reflexivity|]. split; reflexivity.
  - lia.
Defined.

(** With the initial probabilities 0 and 1 the only state of probability
    zero is state 0: there is a state of probability zero, and there is no
    state of probability zero and nonzero index that is left unexamined. *)
Lemma zero_prob_state0_only :
  zero_prob_states [Flt.zero; one_f] = [0%nat] /\
  scanned [Flt.zero; one_f] = [1; 0]%nat /\
  ~ exists j, j ∈ zero_prob_states [Flt.zero; one_f] /\ j <> 0%nat /\
              j ∉ scanned [Flt.zero; one_f].
Proof.
  split; [reflexivity|]. split; [reflexivity|].
  intros (j & Hj & Hj0 & _).
  change (zero_prob_states [Flt.zero; one_f]) with [0%nat] in Hj.
  by apply list_elem_of_singleton in Hj.
Qed.

Lemma scanned_candidates_probs8 :
  length (candidate_pairs probs8) = (2 * length probs8)%nat /\
  length (scanned probs8) = length probs8 /\
  ComputeSpecialState fst8 probs8 =
    scan fst8 (min_states_can_reach (length probs8))
         (take (length probs8) (sort (candidate_pairs probs8))).*2 /\
  scanned probs8 =
    (sort (positive_pairs probs8)).*2 ++
    replicate (length (zero_prob_states probs8)) 0%nat /\
  forall j, j ∈ zero_prob_states probs8 -> j <> 0%nat -> j ∉ scanned probs8.
Proof.
  apply (scanned_candidates fst8 probs8).
  repeat constructor.
Defined.

(** * Further properties of the code *)

(** ** SetTransitions *)

Lemma labels_validb_complete fst num_pdfs :
  labels_valid fst num_pdfs -> labels_validb fst num_pdfs = true.
Proof.
  intros H. unfold labels_validb. apply forallb_forall. intros [s a] Hin.
  apply list_elem_of_In, elem_of_all_arcs, H in Hin. simpl. lia.
Qed.

(** The layout loop without the bound on the offsets. *)
Lemma flatten_records bs pre :
  (flatten bs pre).2 = pre ++ concat bs /\ length (flatten bs pre).1 = length bs.
Proof.
  revert pre. induction bs as [|b bs IH]; intros pre; simpl.
  - by rewrite app_nil_r.
  - destruct (IH (pre ++ b)) as [H1 H2].
    destruct (flatten bs (pre ++ b)) as [rs t]. simpl in *.
    by rewrite H1, H2, <- app_assoc.
Qed.

Section SetTransitionsMore.

Variable exp : spec_float -> spec_float.

(** What a successful call returns, whatever the size of the automaton. *)
Lemma SetTransitions_Ok_inv fst num_pdfs t :
  SetTransitions exp fst num_pdfs = Ok t ->
  labels_valid fst num_pdfs /\
  transitions_ t = concat (map (forward_bucket exp fst) (seq 0 (NumStates fst))) ++
                   concat (map (backward_bucket exp fst) (seq 0 (NumStates fst))) /\
  length (forward_transitions_ t) = NumStates fst /\
  length (backward_transitions_ t) = NumStates fst.
Proof.
  intros Ht.
  assert (Hlab : labels_valid fst num_pdfs).
  { apply labels_validb_sound. unfold labels_validb.
    destruct (forallb _ _) eqn:E; [done|]. exfalso.
    apply forallb_false in E as ([s a] & Hin & Hbad). simpl in Hbad.
    unfold SetTransitions in Ht.
    rewrite (collect_transitions_bad_label exp fst num_pdfs s a) in Ht; [done| |].
    - by apply elem_of_all_arcs.
    - apply andb_false_iff in Hbad as [H|H]; [left; apply Z.leb_gt in H | right; apply Z.ltb_ge in H]; lia. }
  split; [done|]. unfold SetTransitions in Ht.
  rewrite collect_transitions_ok in Ht by done. simpl in Ht.
  pose proof (flatten_records (map (forward_bucket exp fst) (seq 0 (NumStates fst))) [])
    as [H1 H2].
  destruct (flatten (map (forward_bucket exp fst) _) []) as [rf t1].
  pose proof (flatten_records (map (backward_bucket exp fst) (seq 0 (NumStates fst))) t1)
    as [H3 H4].
  destruct (flatten (map (backward_bucket exp fst) _) t1) as [rb t2].
  injection Ht as <-. simpl in *.
  rewrite length_map, length_seq in H2, H4. by rewrite H3, H1.
Qed.

(** X1.  On a well-formed automaton [SetTransitions] returns its tables
    exactly when every label is valid; otherwise it fails the assertion. *)
Theorem SetTransitions_succeeds_iff fst num_pdfs :
  fst_wf fst ->
  (labels_valid fst num_pdfs /\ exists t, SetTransitions exp fst num_pdfs = Ok t) \/
  (~ labels_valid fst num_pdfs /\ SetTransitions exp fst num_pdfs = AssertFailed).
Proof.
  intros _.
  destruct (SetTransitions_outcome exp fst num_pdfs) as [[t Ht]|Hfail].
  - left. split; [|by exists t]. by apply SetTransitions_Ok_inv in Ht as [? _].
  - right. split; [|done]. intros Hlab.
    apply (collect_transitions_ok exp) in Hlab.
    unfold SetTransitions in Hfail. rewrite Hlab in Hfail. simpl in Hfail.
    destruct (flatten _ []) as [rf t1]. by destruct (flatten _ t1).
Qed.

Lemma tiles_total rs lo hi : tiles rs lo hi -> range_total rs = hi - lo.
Proof.
  revert lo. induction rs as [|r rs IH]; intros lo; simpl; [lia|].
  intros (H1 & H2 & H3%IH). lia.
Qed.

(** X2.  The tables that [SetTransitions] returns for a well-formed
    automaton (whose records an [int32] can count) hold one range per state
    in each direction and two records per arc: the ranges of the forward
    table delimit as many records as there are arcs, and so do the ranges
    of the backward table. *)
Theorem SetTransitions_record_count fst num_pdfs t :
  fst_wf fst ->
  2 * Z.of_nat (num_arcs fst) <= INT32_MAX ->
  SetTransitions exp fst num_pdfs = Ok t ->
  length (forward_transitions_ t) = NumStates fst /\
  length (backward_transitions_ t) = NumStates fst /\
  length (transitions_ t) = (2 * num_arcs fst)%nat /\
  range_total (forward_transitions_ t) = Z.of_nat (num_arcs fst) /\
  range_total (backward_transitions_ t) = Z.of_nat (num_arcs fst).
Proof.
  intros Hwf Hfit Ht.
  pose proof (SetTransitions_Ok_inv fst num_pdfs t Ht) as (Hlab & Htr & Hf & Hb).
  destruct (SetTransitions_ok exp fst num_pdfs Hwf Hlab Hfit)
    as (t' & Ht' & _ & _ & _ & Htf & Htb & _).
  rewrite Ht in Ht'. injection Ht' as <-.
  apply tiles_total in Htf, Htb.
  rewrite Htr, length_app, forward_buckets_length, backward_buckets_length by done.
  repeat split; try done; lia.
Qed.

(** X3.  Every record of the tables of a well-formed automaton has its
    pdf-id in [0, num_pdfs) and a state of the automaton as [hmm_state]. *)
Theorem SetTransitions_records_in_range fst num_pdfs t tr :
  fst_wf fst ->
  SetTransitions exp fst num_pdfs = Ok t ->
  tr ∈ transitions_ t ->
  0 <= pdf_id tr < num_pdfs /\ (hmm_state tr < NumStates fst)%nat.
Proof.
  intros Hwf (Hlab & Ht & _)%SetTransitions_Ok_inv. rewrite Ht.
  intros [Hin|Hin]%elem_of_app; apply list_elem_of_In, in_concat in Hin as (b & Hb & Hin);
    apply in_map_iff in Hb as (s & <- & _).
  - apply in_map_iff in Hin as (a & <- & Ha). apply list_elem_of_In in Ha.
    split; [by apply (Hlab s)|]. simpl. by apply (proj2 Hwf s).
  - apply in_map_iff in Hin as ([s' a] & <- & Ha).
    apply filter_In in Ha as [Ha _]. apply list_elem_of_In in Ha.
    split; [apply (Hlab s'); by apply elem_of_all_arcs|].
    by apply all_arcs_source in Ha.
Qed.

Lemma tiles_bounds rs lo hi r :
  tiles rs lo hi -> r ∈ rs -> lo <= r.1 /\ r.1 <= r.2 /\ r.2 <= hi.
Proof.
  revert lo. induction rs as [|r' rs IH]; intros lo Ht Hr; simpl in *.
  - by apply elem_of_nil in Hr.
  - destruct Ht as (H1 & H2 & H3).
    assert (Hlast : forall rs' lo', tiles rs' lo' hi -> lo' <= hi).
    { induction rs' as [|x rs' IH']; intros lo'; simpl; [lia|].
      intros (? & ? & ?%IH'). lia. }
    pose proof (Hlast _ _ H3).
    apply elem_of_cons in Hr as [->|Hr]; [lia|].
    destruct (IH _ H3 Hr) as (? & ? & ?). lia.
Qed.

(** X4.  Every range of the two offset tables lies within the record
    array: [0 <= begin <= end <= transitions.size()]; the forward ranges
    lie in the first half and the backward ranges in the second. *)
Theorem SetTransitions_offsets_in_bounds fst num_pdfs :
  fst_wf fst ->
  labels_valid fst num_pdfs ->
  2 * Z.of_nat (num_arcs fst) <= INT32_MAX ->
  exists t, SetTransitions exp fst num_pdfs = Ok t /\
    (forall r, r ∈ forward_transitions_ t ->
       0 <= r.1 /\ r.1 <= r.2 /\ r.2 <= Z.of_nat (num_arcs fst)) /\
    (forall r, r ∈ backward_transitions_ t ->
       Z.of_nat (num_arcs fst) <= r.1 /\ r.1 <= r.2 /\
       r.2 <= Z.of_nat (length (transitions_ t))).
Proof.
  intros Hwf Hlab Hfit.
  destruct (SetTransitions_ok exp fst num_pdfs Hwf Hlab Hfit)
    as (t & Ht & Htr & _ & _ & Hf & Hb & _).
  exists t. split; [done|].
  assert (Hlen : Z.of_nat (length (transitions_ t)) = 2 * Z.of_nat (num_arcs fst)).
  { rewrite Htr, length_app, forward_buckets_length, backward_buckets_length by done. lia. }
  split; intros r Hr.
  - by apply (tiles_bounds _ _ _ _ Hf).
  - rewrite Hlen. by apply (tiles_bounds _ _ _ _ Hb).
Qed.

(** X5.  The two tables mirror each other: a record in the forward range
    of [s] has its mirror, with [s] as adjacent state, in the backward range
    of its destination, and a record in the backward range of [d] has its
    mirror, with [d] as adjacent state, in the forward range of its
    source. *)
Theorem SetTransitions_mirror fst num_pdfs :
  fst_wf fst ->
  labels_valid fst num_pdfs ->
  2 * Z.of_nat (num_arcs fst) <= INT32_MAX ->
  exists t, SetTransitions exp fst num_pdfs = Ok t /\
    (forall s rf tr,
       forward_transitions_ t !! s = Some rf ->
       tr ∈ slice rf (transitions_ t) ->
       exists rb, backward_transitions_ t !! hmm_state tr = Some rb /\
                  with_state tr s ∈ slice rb (transitions_ t)) /\
    (forall d rb tr,
       backward_transitions_ t !! d = Some rb ->
       tr ∈ slice rb (transitions_ t) ->
       exists rf, forward_transitions_ t !! hmm_state tr = Some rf /\
                  with_state tr d ∈ slice rf (transitions_ t)).
Proof.
  intros Hwf Hlab Hfit.
  destruct (SetTransitions_ok exp fst num_pdfs Hwf Hlab Hfit)
    as (t & Ht & _ & Hlf & Hlb & _ & _ & Hranges).
  exists t. split; [done|]. split.
  - intros s rf tr Hrf Htr.
    assert (Hs : (s < NumStates fst)%nat).
    { rewrite <- Hlf. by apply lookup_lt_Some in Hrf. }
    destruct (Hranges s Hs) as (rf' & _ & Hrf' & _ & Hsf & _).
    rewrite Hrf in Hrf'. injection Hrf' as <-. rewrite Hsf in Htr.
    apply list_elem_of_fmap in Htr as (a & -> & Ha).
    assert (Hd : (nextstate a < NumStates fst)%nat) by by apply (proj2 Hwf s).
    destruct (Hranges _ Hd) as (_ & rb & _ & Hrb & _ & Hsb).
    exists rb. split; [done|]. simpl. rewrite Hsb.
    apply list_elem_of_fmap. exists (s, a). split; [done|].
    apply list_elem_of_In, filter_In. split.
    + by apply list_elem_of_In, elem_of_all_arcs.
    + simpl. by apply Nat.eqb_eq.
  - intros d rb tr Hrb Htr.
    assert (Hd : (d < NumStates fst)%nat).
    { rewrite <- Hlb. by apply lookup_lt_Some in Hrb. }
    destruct (Hranges d Hd) as (_ & rb' & _ & Hrb' & _ & Hsb).
    rewrite Hrb in Hrb'. injection Hrb' as <-. rewrite Hsb in Htr.
    apply list_elem_of_fmap in Htr as ([s a] & -> & Ha).
    apply list_elem_of_In, filter_In in Ha as [Ha Heq].
    apply list_elem_of_In in Ha. simpl in Heq. apply Nat.eqb_eq in Heq.
    pose proof (all_arcs_source _ _ Ha) as Hs. simpl in Hs.
    destruct (Hranges _ Hs) as (rf & _ & Hrf & _ & Hsf & _).
    exists rf. split; [done|]. simpl. rewrite Hsf.
    apply list_elem_of_fmap. exists a. split; [|by apply elem_of_all_arcs].
    unfold with_state, backward_record, forward_record. simpl. by rewrite Heq.
Qed.

End SetTransitionsMore.

(** ** NumStatesThatCanReach *)

(** The arcs as pairs of source and destination are read off the shape. *)
Lemma edges_of_shape fst :
  map (fun x : nat * StdArc => (x.1, nextstate x.2)) (all_arcs fst) =
  flat_map (fun s => map (pair s) (default [] (shape fst !! s)))
           (seq 0 (length (shape fst))).
Proof.
  unfold all_arcs, shape, NumStates. rewrite length_map.
  induction (seq 0 (length (states fst))) as [|s l IH]; simpl; [done|].
  rewrite map_app, IH. f_equal.
  rewrite list_lookup_fmap. unfold Arcs.
  destruct (states fst !! s) as [st|]; simpl; [|done].
  rewrite !map_map. done.
Qed.

Lemma reverse_transitions_of_edges fst :
  reverse_transitions fst =
  map (fun d => map (fun y : nat * nat => y.1)
                    (List.filter (fun y : nat * nat => y.2 =? d)%nat
                       (map (fun x : nat * StdArc => (x.1, nextstate x.2)) (all_arcs fst))))
      (seq 0 (NumStates fst)).
Proof.
  rewrite reverse_transitions_spec. apply map_ext. intros d.
  unfold in_arcs. rewrite filter_map_comm, map_map. done.
Qed.

(** The search reads the shape of the automaton only. *)
Lemma reach_count_shape fst1 fst2 dest_state :
  shape fst1 = shape fst2 ->
  NumStatesThatCanReach fst1 dest_state = NumStatesThatCanReach fst2 dest_state.
Proof.
  intros Hshape.
  assert (Hn : NumStates fst1 = NumStates fst2).
  { pose proof (f_equal length Hshape) as H. unfold shape in H.
    by rewrite !length_map in H. }
  unfold NumStatesThatCanReach.
  by rewrite !reverse_transitions_of_edges, !edges_of_shape, Hshape, Hn.
Qed.

(** X6.  The count depends on the destinations of the arcs only: two
    automata with the same shape (whatever their labels, weights, final
    weights and start states) give the same result for every state. *)
Theorem NumStatesThatCanReach_shape fst1 fst2 dest_state :
  shape fst1 = shape fst2 ->
  NumStatesThatCanReach fst1 dest_state = NumStatesThatCanReach fst2 dest_state.
Proof. apply reach_count_shape. Qed.

Lemma reach_count_le fst d d' :
  (d < NumStates fst)%nat -> (d' < NumStates fst)%nat ->
  (forall s, reaches fst s d -> reaches fst s d') ->
  exists n n', NumStatesThatCanReach fst d = Ok n /\
               NumStatesThatCanReach fst d' = Ok n' /\ (n <= n')%nat.
Proof.
  intros Hd Hd' Hsub.
  destruct (NumStatesThatCanReach_returns fst d Hd) as (l & -> & Hnd & Hl & _).
  destruct (NumStatesThatCanReach_returns fst d' Hd') as (l' & -> & _ & Hl' & _).
  eexists _, _. repeat split.
  apply submseteq_length, NoDup_submseteq; [done|].
  intros s [Hs Hr]%Hl. apply Hl'. auto.
Qed.

(** X7.  In a well-formed automaton the count grows along the arcs: when
    [d'] is reached from [d],
    at least as many states reach [d'] as reach [d]; two states that reach
    each other have the same count. *)
Theorem NumStatesThatCanReach_monotone fst d d' :
  fst_wf fst ->
  (d' < NumStates fst)%nat ->
  reaches fst d d' ->
  exists n n', NumStatesThatCanReach fst d = Ok n /\
               NumStatesThatCanReach fst d' = Ok n' /\
               (n <= n')%nat /\
               (reaches fst d' d -> n = n').
Proof.
  intros _ Hd' Hr.
  assert (Hd : (d < NumStates fst)%nat).
  { destruct Hr as [|x y z Hxy _]; [done|]. by eapply edge_source. }
  destruct (reach_count_le fst d d' Hd Hd') as (n & n' & Hn & Hn' & Hle).
  { intros s Hs. unfold reaches in *. by etransitivity. }
  exists n, n'. repeat split; try done. intros Hr'.
  destruct (reach_count_le fst d' d Hd' Hd) as (m' & m & Hm' & Hm & Hle').
  { intros s Hs. unfold reaches in *. by etransitivity. }
  rewrite Hn in Hm. rewrite Hn' in Hm'. injection Hm as <-. injection Hm' as <-. lia.
Qed.

(** Without predecessors the search marks the destination only. *)
Lemma reach_count_no_predecessor fst d :
  (d < NumStates fst)%nat ->
  (forall s, edge fst s d -> s = d) ->
  NumStatesThatCanReach fst d = Ok 1%nat.
Proof.
  intros Hd Hno.
  destruct (NumStatesThatCanReach_returns fst d Hd) as (l & -> & Hnd & Hl & _).
  f_equal. change 1%nat with (length [d]).
  apply Permutation_length, NoDup_Permutation; [done|apply NoDup_singleton|].
  assert (Hself : forall s, reaches fst s d -> s = d).
  { intros s Hr. induction Hr as [|x y z Hxy _ IH]; [done|].
    specialize (IH Hd Hno Hl). subst y. by apply Hno. }
  intros s. rewrite Hl, list_elem_of_singleton. split.
  - intros [_ Hr]. by apply Hself.
  - intros ->. split; [done|]. apply rtc_refl.
Qed.

(** X8.  In a well-formed automaton a state into which no other state has
    an arc is reached from itself only: its count is 1. *)
Theorem NumStatesThatCanReach_no_predecessor fst d :
  fst_wf fst ->
  (d < NumStates fst)%nat ->
  (forall s, edge fst s d -> s = d) ->
  NumStatesThatCanReach fst d = Ok 1%nat.
Proof. intros _. apply reach_count_no_predecessor. Qed.

Lemma strongly_connected_count fst d :
  strongly_connected fst -> (d < NumStates fst)%nat ->
  NumStatesThatCanReach fst d = Ok (NumStates fst).
Proof.
  intros Hsc Hd.
  destruct (NumStatesThatCanReach_returns fst d Hd) as (l & -> & Hnd & Hl & _).
  f_equal. transitivity (length (seq 0 (NumStates fst))); [|by rewrite length_seq].
  apply Permutation_length, NoDup_Permutation; [done|apply NoDup_seq|].
  intros s. rewrite Hl, elem_of_seq. split; [intros [? _]; lia|].
  intros [_ Hs]. split; [lia|]. apply Hsc; lia.
Qed.

(** ** ComputeSpecialState *)

(** The scan returns the first candidate that meets the threshold, and
    raises the error when there is none. *)
Lemma scan_spec fst threshold cands :
  Forall (fun c => c < NumStates fst)%nat cands ->
  (scan fst threshold cands = KaldiErr /\
   forall c, c ∈ cands ->
     exists n, NumStatesThatCanReach fst c = Ok n /\ (n < threshold)%nat) \/
  (exists rejected state rest n,
     cands = rejected ++ state :: rest /\
     scan fst threshold cands = Ok state /\
     NumStatesThatCanReach fst state = Ok n /\ (threshold <= n)%nat /\
     forall c, c ∈ rejected ->
       exists m, NumStatesThatCanReach fst c = Ok m /\ (m < threshold)%nat).
Proof.
  induction 1 as [|c cands Hc _ IH]; simpl.
  - left. split; [done|]. by intros c ?%elem_of_nil.
  - destruct (NumStatesThatCanReach_returns fst c Hc) as (l & Hret & _).
    rewrite Hret. simpl. destruct (Nat.ltb_spec (length l) threshold) as [Hlt|Hge].
    + destruct IH as [[Herr Hall]|(rej & st & rest & n & -> & Hok & Hn & Hle & Hrej)].
      * left. split; [done|].
        intros c' [->|Hc']%elem_of_cons; [by exists (length l)|by apply Hall].
      * right. exists (c :: rej), st, rest, n. repeat split; try done.
        intros c' [->|Hc']%elem_of_cons; [by exists (length l)|by apply Hrej].
    + right. exists [], c, cands, (length l). repeat split; try done.
      by intros c' ?%elem_of_nil.
Qed.

(** The two ways in which the selection ends. *)
Lemma select_outcome fst initial_probs :
  length initial_probs = NumStates fst ->
  (ComputeSpecialState fst initial_probs = KaldiErr /\
   forall c, c ∈ scanned initial_probs ->
     exists n, NumStatesThatCanReach fst c = Ok n /\
               (n < min_states_can_reach (NumStates fst))%nat) \/
  (exists rejected state rest n,
     scanned initial_probs = rejected ++ state :: rest /\
     ComputeSpecialState fst initial_probs = Ok state /\
     (state < NumStates fst)%nat /\
     NumStatesThatCanReach fst state = Ok n /\
     (min_states_can_reach (NumStates fst) <= n)%nat /\
     forall c, c ∈ rejected ->
       exists m, NumStatesThatCanReach fst c = Ok m /\
                 (m < min_states_can_reach (NumStates fst))%nat).
Proof.
  intros Hlen. unfold ComputeSpecialState. rewrite Hlen.
  assert (Hrange : Forall (fun c => c < NumStates fst)%nat (scanned initial_probs)).
  { apply Forall_forall. intros c Hc%scanned_in_range. lia. }
  destruct (scan_spec fst (min_states_can_reach (NumStates fst)) _ Hrange)
    as [?|(rej & st & rest & n & Heq & Hok & Hn & Hle & Hrej)]; [by left|].
  right. exists rej, st, rest, n. repeat split; try done.
  rewrite Forall_forall in Hrange. apply Hrange. rewrite Heq.
  apply elem_of_app. right. apply list_elem_of_here.
Qed.


(** X9.  For a well-formed automaton and initial probabilities of its
    states, none negative or a NaN, the selection ends in one of two ways: the fatal error, when every examined candidate is
    reached from fewer states than the threshold; or a state of the
    automaton that meets the threshold, the first such in the examined
    list.  It never fails an assertion. *)
Theorem ComputeSpecialState_outcome fst initial_probs :
  fst_wf fst ->
  probs_nonneg initial_probs ->
  length initial_probs = NumStates fst ->
  (ComputeSpecialState fst initial_probs = KaldiErr /\
   forall c, c ∈ scanned initial_probs ->
     exists n, NumStatesThatCanReach fst c = Ok n /\
               (n < min_states_can_reach (NumStates fst))%nat) \/
  (exists rejected state rest n,
     scanned initial_probs = rejected ++ state :: rest /\
     ComputeSpecialState fst initial_probs = Ok state /\
     (state < NumStates fst)%nat /\
     NumStatesThatCanReach fst state = Ok n /\
     (min_states_can_reach (NumStates fst) <= n)%nat /\
     forall c, c ∈ rejected ->
       exists m, NumStatesThatCanReach fst c = Ok m /\
                 (m < min_states_can_reach (NumStates fst))%nat).
Proof. intros _ _. apply select_outcome. Qed.

(** X10.  On a well-formed, strongly connected automaton, with initial
    probabilities none of which is negative or a NaN, the first candidate
    of the sorted pairs is selected at once: the selection never raises the
    error. *)
Theorem ComputeSpecialState_strongly_connected fst initial_probs :
  fst_wf fst ->
  probs_nonneg initial_probs ->
  strongly_connected fst ->
  length initial_probs = NumStates fst ->
  (1 <= NumStates fst)%nat ->
  exists state rest,
    scanned initial_probs = state :: rest /\
    ComputeSpecialState fst initial_probs = Ok state.
Proof.
  intros _ _ Hsc Hlen Hn. unfold ComputeSpecialState.
  pose proof (length_scanned initial_probs) as Hl.
  destruct (scanned initial_probs) as [|c rest] eqn:E; simpl in Hl; [lia|].
  exists c, rest. split; [done|]. simpl.
  assert (Hc : (c < NumStates fst)%nat).
  { rewrite <- Hlen. apply scanned_in_range. rewrite E. apply list_elem_of_here. }
  rewrite (strongly_connected_count fst c Hsc Hc). simpl.
  rewrite (proj2 (Nat.ltb_ge _ _)); [done|].
  unfold min_states_can_reach. rewrite Hlen.
  apply Nat.Div0.div_le_upper_bound. lia.
Qed.

Lemma filter_all {A} (P : A -> bool) l :
  (forall x, x ∈ l -> P x = true) -> List.filter P l = l.
Proof.
  induction l as [|x l IH]; intros H; simpl; [done|].
  rewrite H by apply list_elem_of_here. f_equal.
  apply IH. intros; apply H; by apply list_elem_of_further.
Qed.

Lemma filter_none {A} (P : A -> bool) l :
  (forall x, x ∈ l -> P x = false) -> List.filter P l = [].
Proof.
  induction l as [|x l IH]; intros H; simpl; [done|].
  rewrite H by apply list_elem_of_here.
  apply IH. intros; apply H; by apply list_elem_of_further.
Qed.

Lemma positive_is_nonneg initial_probs :
  probs_positive initial_probs -> probs_nonneg initial_probs.
Proof.
  intros H. eapply Forall_impl; [exact H|].
  intros v. by destruct v as [?|[]| |[] m e].
Qed.

(** X11.  When every initial probability is above zero the examined
    candidates are all the states ranked by probability, and the selection
    is the scan of the ranked states. *)
Theorem ComputeSpecialState_positive_probs fst initial_probs :
  probs_positive initial_probs ->
  scanned initial_probs = ranked_states initial_probs /\
  ComputeSpecialState fst initial_probs = select_by_rank fst initial_probs.
Proof.
  intros Hpos.
  assert (Hs : scanned initial_probs = ranked_states initial_probs);
    [|split; [done|]; unfold ComputeSpecialState, select_by_rank; by rewrite Hs].
  rewrite scanned_eq by by apply positive_is_nonneg.
  unfold probs_positive in Hpos. rewrite Forall_forall in Hpos.
  assert (Hv : forall i, i ∈ seq 0 (length initial_probs) ->
             Flt.ltb Flt.zero (default Flt.zero (initial_probs !! i)) = true).
  { intros i Hi%elem_of_seq.
    destruct (lookup_lt_is_Some_2 initial_probs i) as [v Hv]; [lia|].
    rewrite Hv. simpl. apply Hpos. by eapply list_elem_of_lookup_2. }
  assert (Hz : zero_prob_states initial_probs = []).
  { apply filter_none. intros i Hi%Hv. unfold zero_prob.
    by destruct (default Flt.zero (initial_probs !! i)) as [?|[]| |[] m e]. }
  assert (Hp : positive_pairs initial_probs = real_pairs initial_probs).
  { apply filter_all. intros x (i & -> & Hi%Hv)%list_elem_of_fmap.
    unfold is_neg. simpl.
    by destruct (default Flt.zero (initial_probs !! i)) as [?|[]| |[] m e]. }
  rewrite Hz, Hp. simpl. by rewrite app_nil_r.
Qed.

(** ** SetInitialProbs *)

Lemma lookup_fold_insert {A} (f : nat -> A) (l : list nat) (v : list A) (i : nat) :
  fold_left (fun v s => <[s := f s]> v) l v !! i =
  if bool_decide (i ∈ l) then (fun _ => f i) <$> v !! i else v !! i.
Proof.
  revert v. induction l as [|x l IH]; intros v; simpl; [done|].
  rewrite IH. destruct (decide (i ∈ l)) as [Hin|Hin].
  - rewrite !bool_decide_eq_true_2 by (try apply list_elem_of_further; done).
    destruct (decide (x = i)) as [->|Hne].
    + destruct (v !! i) eqn:E.
      * by rewrite list_lookup_insert_eq by by eapply lookup_lt_Some.
      * rewrite list_insert_ge by by apply lookup_ge_None. by rewrite E.
    + by rewrite list_lookup_insert_ne.
  - rewrite (bool_decide_eq_false_2 (i ∈ l)) by done.
    destruct (decide (x = i)) as [->|Hne].
    + rewrite bool_decide_eq_true_2 by apply list_elem_of_here.
      destruct (v !! i) eqn:E.
      * by rewrite list_lookup_insert_eq by by eapply lookup_lt_Some.
      * rewrite list_insert_ge by by apply lookup_ge_None. by rewrite E.
    + rewrite bool_decide_eq_false_2, list_lookup_insert_ne; [done..|].
      by intros [?|?]%elem_of_cons.
Qed.

Section SetInitialProbsMore.

Variable exp : spec_float -> spec_float.

(** X12.  The first loop of [SetInitialProbs] succeeds exactly when the
    total mass of every state is above 0 and below 100, and then the
    normalizing factor of a state is the reciprocal of its mass; otherwise
    it fails the assertion. *)
Theorem normalizing_factors_outcome fst :
  ((forall s, (s < NumStates fst)%nat -> mass_ok (tot_prob exp fst s) = true) /\
   normalizing_factors exp fst =
     Ok (map (fun s => Flt.div Flt.one (tot_prob exp fst s)) (seq 0 (NumStates fst)))) \/
  ((exists s, (s < NumStates fst)%nat /\ mass_ok (tot_prob exp fst s) = false) /\
   normalizing_factors exp fst = AssertFailed).
Proof.
  destruct (forallb (fun s => mass_ok (tot_prob exp fst s)) (seq 0 (NumStates fst))) eqn:E.
  - left. rewrite forallb_forall in E. split.
    { intros s Hs. apply E, in_seq. lia. }
    unfold normalizing_factors.
    rewrite (foldM_pure _ (fun nf s => <[s := Flt.div Flt.one (tot_prob exp fst s)]> nf)).
    + f_equal. apply list_eq. intros i.
      rewrite (lookup_fold_insert (fun s => Flt.div Flt.one (tot_prob exp fst s))).
      rewrite list_lookup_fmap. unfold Vec.zeros.
      destruct (decide (i < NumStates fst)%nat) as [Hi|Hi].
      * rewrite bool_decide_eq_true_2 by (apply elem_of_seq; lia).
        by rewrite lookup_replicate_2, lookup_seq_lt.
      * rewrite bool_decide_eq_false_2 by (rewrite elem_of_seq; lia).
        rewrite lookup_seq_ge by lia.
        by apply lookup_replicate_None; lia.
    + intros s nf Hs. rewrite normalizing_state_unfold.
      by rewrite E by by apply list_elem_of_In.
  - right. apply forallb_false in E as (s & Hs & Hbad).
    apply elem_of_seq in Hs.
    split; [exists s; split; [lia|done]|].
    apply (normalizing_factors_bad_mass exp fst s); [lia|done].
Qed.

Lemma length_propagate_state fst nf cur next s :
  length (propagate_state exp fst nf cur next s) = length next.
Proof.
  unfold propagate_state. generalize (Flt.mul (Vec.get cur s) (Vec.get nf s)). intros prob.
  revert next. induction (Arcs fst s) as [|a l IH]; intros next; simpl; [done|].
  rewrite IH. unfold propagate_arc. apply length_alter.
Qed.

Lemma length_propagate fst nf n cur next avg cur' next' avg' :
  length cur = n -> length next = n -> length avg = n ->
  propagate exp fst nf (cur, next, avg) = (cur', next', avg') ->
  length cur' = n /\ length next' = n /\ length avg' = n.
Proof.
  intros Hc Hn Ha. unfold propagate. intros [= <- <- <-].
  assert (Hfold : length (fold_left (propagate_state exp fst nf cur)
                            (seq 0 (NumStates fst)) next) = n).
  { rewrite <- Hn. generalize (seq 0 (NumStates fst)). intros l. clear Hn.
    revert next. induction l as [|s l IH]; intros next; simpl; [done|].
    by rewrite IH, length_propagate_state. }
  unfold Vec.AddVec, Vec.Scale, Vec.SetZero, Vec.zeros.
  rewrite length_zip_with, !length_map, length_replicate, Hfold. lia.
Qed.

Lemma length_average_probs fst nf :
  length (average_probs exp fst nf) = NumStates fst.
Proof.
  unfold average_probs.
  assert (H : forall k st,
    st = Nat.iter k (propagate exp fst nf)
           (<[Start fst := Flt.one]> (Vec.zeros (NumStates fst)),
            Vec.zeros (NumStates fst), Vec.zeros (NumStates fst)) ->
    length st.1.1 = NumStates fst /\ length st.1.2 = NumStates fst /\
    length st.2 = NumStates fst).
  { induction k as [|k IH]; intros st ->.
    - unfold Nat.iter, Vec.zeros. cbn [nat_rect Datatypes.fst Datatypes.snd].
      by rewrite length_insert, !length_replicate.
    - rewrite Nat.iter_succ. destruct (Nat.iter k _ _) as [[cur next] avg] eqn:E.
      destruct (IH _ eq_refl) as (Hc & Hn & Ha).
      destruct (propagate exp fst nf (cur, next, avg)) as [[cur' next'] avg'] eqn:E'.
      by apply (length_propagate fst nf _ _ _ _ _ _ _ Hc Hn Ha E'). }
  by apply (H (Z.to_nat num_iters) _ eq_refl).
Qed.

(** What a successful call of [SetInitialProbs] returns. *)
Lemma SetInitialProbs_Ok_inv fst initial_probs special :
  SetInitialProbs exp fst = Ok (initial_probs, special) ->
  length initial_probs = NumStates fst /\
  (special < NumStates fst)%nat /\
  (forall s, (s < NumStates fst)%nat -> mass_ok (tot_prob exp fst s) = true) /\
  exists n, NumStatesThatCanReach fst special = Ok n /\
            (min_states_can_reach (NumStates fst) <= n)%nat.
Proof.
  unfold SetInitialProbs.
  destruct (normalizing_factors exp fst) as [nf| | |] eqn:Hnf;
    cbv beta iota zeta delta [mbind result_bind]; [|discriminate..].
  pose proof (length_average_probs fst nf) as Hlen.
  generalize dependent (average_probs exp fst nf). intros avg Hlen.
  destruct (ComputeSpecialState fst (map Flt.to_single avg)) as [st| | |] eqn:Hsp;
    [|discriminate..].
  intros [= <- <-]. rewrite length_map.
  destruct (select_outcome fst (map Flt.to_single avg))
    as [[Herr _]|(rej & st' & rest & n & _ & Hok & Hst & Hn & Hle & _)].
  { by rewrite length_map. }
  { congruence. }
  rewrite Hsp in Hok. injection Hok as <-.
  repeat split; try done; [|by exists n].
  intros s Hs. destruct (mass_ok (tot_prob exp fst s)) eqn:E; [done|].
  by rewrite (normalizing_factors_bad_mass exp fst s Hs E) in Hnf.
Qed.

(** X13.  When [SetInitialProbs] succeeds, the vector that it returns has
    one entry per state, the mass of every state passed the assertion, and
    the special state is a state of the automaton that is reached from at
    least [min_states_can_reach] states. *)
Theorem SetInitialProbs_postcondition fst initial_probs special :
  SetInitialProbs exp fst = Ok (initial_probs, special) ->
  length initial_probs = NumStates fst /\
  (special < NumStates fst)%nat /\
  (forall s, (s < NumStates fst)%nat -> mass_ok (tot_prob exp fst s) = true) /\
  exists n, NumStatesThatCanReach fst special = Ok n /\
            (min_states_can_reach (NumStates fst) <= n)%nat.
Proof. apply SetInitialProbs_Ok_inv. Qed.

(** X14.  In an object that the constructor returns, the two offset
    tables and the initial probabilities have one entry per state of the
    automaton, and the special state is one of its states. *)
Theorem DenominatorGraph_invariant fst num_pdfs g :
  DenominatorGraph exp fst num_pdfs = Ok g ->
  length (forward_transitions_ (tables g)) = NumStates fst /\
  length (backward_transitions_ (tables g)) = NumStates fst /\
  length (initial_probs_ g) = NumStates fst /\
  (special_hmm_state_ g < NumStates fst)%nat /\
  labels_valid fst num_pdfs.
Proof.
  unfold DenominatorGraph.
  destruct (SetTransitions exp fst num_pdfs) as [t| | |] eqn:Ht;
    cbv beta iota zeta delta [mbind result_bind]; [|discriminate..].
  destruct (SetInitialProbs exp fst) as [[p sp]| | |] eqn:Hp; [|discriminate..].
  intros [= <-]. cbn [tables initial_probs_ special_hmm_state_].
  apply SetTransitions_Ok_inv in Ht as (Hlab & _ & Hf & Hb).
  apply SetInitialProbs_Ok_inv in Hp as (Hl & Hs & _).
  done.
Qed.

End SetInitialProbsMore.

(** ** MapFstToPdfIdsPlusOne *)

Lemma mapM_outcome {A B} (f : A -> result B) (ok : A -> bool) (g : A -> B) l :
  (forall a, f a = if ok a then Ok (g a) else AssertFailed) ->
  mapM f l = if forallb ok l then Ok (map g l) else AssertFailed.
Proof.
  intros Hf. induction l as [|a l IH]; simpl; [done|].
  rewrite Hf. destruct (ok a); simpl; [|done].
  rewrite IH. by destruct (forallb ok l).
Qed.

Lemma Arcs_lookup fst s st : states fst !! s = Some st -> Arcs fst s = arcs st.
Proof. unfold Arcs. by intros ->. Qed.

Lemma acceptor_states fst :
  acceptor fst <->
  forallb (fun st => forallb (fun a => ilabel a =? olabel a) (arcs st)) (states fst) = true.
Proof.
  rewrite forallb_forall. split.
  - intros Hacc st Hst. apply forallb_forall. intros a Ha.
    apply list_elem_of_In, list_elem_of_lookup in Hst as [s Hs].
    apply Z.eqb_eq, (Hacc s). rewrite (Arcs_lookup _ _ _ Hs). by apply list_elem_of_In.
  - intros H s a Ha. unfold Arcs in Ha.
    destruct (states fst !! s) as [st|] eqn:Hs; [|by apply elem_of_nil in Ha].
    apply list_elem_of_lookup_2, list_elem_of_In, H in Hs.
    rewrite forallb_forall in Hs. by apply Z.eqb_eq, Hs, list_elem_of_In.
Qed.

Section MapFstFacts.

Variable TransitionIdToPdf : Z -> Z.

Lemma map_arc_unfold a :
  map_arc TransitionIdToPdf a =
  if ilabel a =? olabel a then Ok (relabel_arc TransitionIdToPdf a) else AssertFailed.
Proof.
  unfold map_arc, relabel_arc. destruct (ilabel a =? olabel a); simpl; [|done].
  by destruct (0 <? ilabel a).
Qed.

Lemma map_state_unfold st :
  map_state TransitionIdToPdf st =
  if forallb (fun a => ilabel a =? olabel a) (arcs st)
  then Ok {| final := final st; arcs := map (relabel_arc TransitionIdToPdf) (arcs st) |}
  else AssertFailed.
Proof.
  unfold map_state.
  rewrite (mapM_outcome _ (fun a => ilabel a =? olabel a) (relabel_arc TransitionIdToPdf))
    by apply map_arc_unfold.
  by destruct (forallb _ _).
Qed.

Lemma MapFstToPdfIdsPlusOne_unfold fst :
  MapFstToPdfIdsPlusOne TransitionIdToPdf fst =
  if forallb (fun st => forallb (fun a => ilabel a =? olabel a) (arcs st)) (states fst)
  then Ok (relabel TransitionIdToPdf fst) else AssertFailed.
Proof.
  unfold MapFstToPdfIdsPlusOne.
  rewrite (mapM_outcome _ _ _ _ map_state_unfold).
  by destruct (forallb _ _).
Qed.

Lemma Arcs_relabel fst s :
  Arcs (relabel TransitionIdToPdf fst) s = map (relabel_arc TransitionIdToPdf) (Arcs fst s).
Proof.
  unfold Arcs, relabel. simpl. rewrite list_lookup_fmap.
  by destruct (states fst !! s).
Qed.

Lemma relabel_arc_fields a :
  weight (relabel_arc TransitionIdToPdf a) = weight a /\
  nextstate (relabel_arc TransitionIdToPdf a) = nextstate a /\
  olabel (relabel_arc TransitionIdToPdf a) =
    (if ilabel a =? olabel a then ilabel (relabel_arc TransitionIdToPdf a)
     else olabel (relabel_arc TransitionIdToPdf a)) /\
  ilabel (relabel_arc TransitionIdToPdf a) =
    if 0 <? ilabel a then TransitionIdToPdf (ilabel a) + 1 else ilabel a.
Proof.
  unfold relabel_arc. destruct (0 <? ilabel a) eqn:E; simpl; repeat split; try done.
  - by destruct (_ =? _).
  - destruct (Z.eqb_spec (ilabel a) (olabel a)); congruence.
Qed.

Lemma shape_relabel fst : shape (relabel TransitionIdToPdf fst) = shape fst.
Proof.
  unfold shape, relabel. simpl. rewrite map_map. apply map_ext. intros st. simpl.
  rewrite map_map. apply map_ext. intros a. apply relabel_arc_fields.
Qed.

Lemma relabel_wf fst : fst_wf fst -> fst_wf (relabel TransitionIdToPdf fst).
Proof.
  intros [Hs Ha].
  assert (Hn : NumStates (relabel TransitionIdToPdf fst) = NumStates fst).
  { unfold NumStates, relabel. simpl. apply length_map. }
  split; rewrite Hn; [done|].
  intros s a. rewrite Arcs_relabel. intros (a0 & -> & Hin)%list_elem_of_fmap.
  destruct (relabel_arc_fields a0) as (_ & -> & _). by apply (Ha s).
Qed.

(** X15.  [MapFstToPdfIdsPlusOne] succeeds exactly on acceptors, and then
    returns the automaton with every positive label replaced; on an arc
    whose two labels differ it fails the assertion. *)
Theorem MapFstToPdfIdsPlusOne_outcome fst :
  (acceptor fst /\
   MapFstToPdfIdsPlusOne TransitionIdToPdf fst = Ok (relabel TransitionIdToPdf fst)) \/
  (~ acceptor fst /\ MapFstToPdfIdsPlusOne TransitionIdToPdf fst = AssertFailed).
Proof.
  rewrite MapFstToPdfIdsPlusOne_unfold, acceptor_states.
  destruct (forallb _ _); [left|right]; split; done.
Qed.

(** X16.  What [MapFstToPdfIdsPlusOne] keeps: the states, the start state,
    the final weights, and of every arc the weight and the destination; an
    arc whose label is not positive is left as it is, a positive label
    [tid] becomes [TransitionIdToPdf(tid) + 1] on both sides.  The result is
    an acceptor, it is well formed when the input is, and every state is
    reached from as many states as before. *)
Theorem MapFstToPdfIdsPlusOne_preserves fst fst' :
  MapFstToPdfIdsPlusOne TransitionIdToPdf fst = Ok fst' ->
  NumStates fst' = NumStates fst /\
  Start fst' = Start fst /\
  (forall s, Final fst' s = Final fst s) /\
  (forall s i a', Arcs fst' s !! i = Some a' ->
     exists a, Arcs fst s !! i = Some a /\
       weight a' = weight a /\ nextstate a' = nextstate a /\
       ilabel a' = olabel a' /\
       ilabel a' = if 0 <? ilabel a then TransitionIdToPdf (ilabel a) + 1 else ilabel a) /\
  (forall s, length (Arcs fst' s) = length (Arcs fst s)) /\
  acceptor fst' /\
  (fst_wf fst -> fst_wf fst') /\
  (forall d, NumStatesThatCanReach fst' d = NumStatesThatCanReach fst d).
Proof.
  rewrite MapFstToPdfIdsPlusOne_unfold.
  destruct (forallb _ _) eqn:Hacc; [|discriminate]. intros [= <-].
  apply acceptor_states in Hacc.
  assert (Harc : forall s a', a' ∈ Arcs (relabel TransitionIdToPdf fst) s ->
            ilabel a' = olabel a').
  { intros s a'. rewrite Arcs_relabel. intros (a & -> & Ha)%list_elem_of_fmap.
    destruct (relabel_arc_fields a) as (_ & _ & Ho & _).
    rewrite Ho, (proj2 (Z.eqb_eq _ _)); [done|]. by apply (Hacc s). }
  split; [|split; [|split; [|split; [|split; [|split; [|split]]]]]].
  - unfold NumStates, relabel. simpl. apply length_map.
  - done.
  - intros s. unfold Final, relabel. simpl. rewrite list_lookup_fmap.
    by destruct (states fst !! s).
  - intros s i a'. rewrite Arcs_relabel, list_lookup_fmap.
    destruct (Arcs fst s !! i) as [a|] eqn:Ha; [|done]. intros [= <-].
    exists a. destruct (relabel_arc_fields a) as (Hw & Hd & _ & Hi).
    repeat split; try done.
    apply (Harc s). rewrite Arcs_relabel. apply list_elem_of_fmap_2.
    by eapply list_elem_of_lookup_2.
  - intros s. by rewrite Arcs_relabel, length_map.
  - exact Harc.
  - apply relabel_wf.
  - intros d. apply reach_count_shape, shape_relabel.
Qed.

Lemma all_arcs_relabel fst :
  all_arcs (relabel TransitionIdToPdf fst) =
  map (fun x => (x.1, relabel_arc TransitionIdToPdf x.2)) (all_arcs fst).
Proof.
  unfold all_arcs.
  replace (NumStates (relabel TransitionIdToPdf fst)) with (NumStates fst)
    by (unfold NumStates, relabel; simpl; by rewrite length_map).
  induction (seq 0 (NumStates fst)) as [|s l IH]; simpl; [done|].
  rewrite map_app, IH, Arcs_relabel, !map_map. done.
Qed.

(** X17.  An acceptor without arcs of label 0 or below, whose
    transition-ids all have a pdf in [0, num_pdfs), goes through
    [MapFstToPdfIdsPlusOne] and then [SetTransitions] without a failure, and
    the forward records of a state carry the pdfs of the transition-ids of
    its arcs. *)
Theorem MapFstToPdfIdsPlusOne_SetTransitions exp fst num_pdfs :
  fst_wf fst ->
  acceptor fst ->
  (forall s a, a ∈ Arcs fst s ->
     0 < ilabel a /\ 0 <= TransitionIdToPdf (ilabel a) < num_pdfs) ->
  2 * Z.of_nat (num_arcs fst) <= INT32_MAX ->
  exists fst' t,
    MapFstToPdfIdsPlusOne TransitionIdToPdf fst = Ok fst' /\
    SetTransitions exp fst' num_pdfs = Ok t /\
    forall s, (s < NumStates fst)%nat ->
      exists rf, forward_transitions_ t !! s = Some rf /\
        slice rf (transitions_ t) =
        map (fun a => {| transition_prob := Flt.to_single (exp (Flt.opp (weight a)));
                         pdf_id := TransitionIdToPdf (ilabel a);
                         hmm_state := nextstate a |}) (Arcs fst s).
Proof.
  intros Hwf Hacc Hlab Hfit.
  exists (relabel TransitionIdToPdf fst).
  assert (Hlab' : labels_valid (relabel TransitionIdToPdf fst) num_pdfs).
  { intros s a'. rewrite Arcs_relabel. intros (a & -> & Ha)%list_elem_of_fmap.
    destruct (Hlab s a Ha) as [Hpos Hpdf].
    destruct (relabel_arc_fields a) as (_ & _ & _ & ->).
    rewrite (proj2 (Z.ltb_lt _ _)) by done. lia. }
  assert (Hnum : num_arcs (relabel TransitionIdToPdf fst) = num_arcs fst).
  { unfold num_arcs. by rewrite all_arcs_relabel, length_map. }
  destruct (SetTransitions_ok exp _ num_pdfs (relabel_wf fst Hwf) Hlab')
    as (t & Ht & _ & _ & _ & _ & _ & Hranges); [by rewrite Hnum|].
  exists t. split; [|split; [done|]].
  - rewrite MapFstToPdfIdsPlusOne_unfold.
    by rewrite (proj1 (acceptor_states fst) Hacc).
  - intros s Hs.
    destruct (Hranges s) as (rf & _ & Hrf & _ & Hsf & _).
    { unfold NumStates, relabel in *. simpl. by rewrite length_map. }
    exists rf. split; [done|]. rewrite Hsf. unfold forward_bucket.
    rewrite Arcs_relabel, map_map.
    apply map_ext_in. intros a Ha%list_elem_of_In.
    destruct (Hlab s a Ha) as [Hpos _].
    destruct (relabel_arc_fields a) as (Hw & Hd & _ & Hi).
    unfold forward_record. rewrite Hw, Hd, Hi, (proj2 (Z.ltb_lt _ _)) by done.
    f_equal. lia.
Qed.

End MapFstFacts.

(** ** GetNormalizationFst *)

Section NormalizationFacts.

Variable log : spec_float -> spec_float.
Variables RmEpsilon ArcSort : StdVectorFst -> StdVectorFst.

(** The loop over the states, from state [a] on: [pre] are the states
    already made final, [mid] those still to come, and the last state is
    the new initial state with the arcs added so far. *)
Lemma fold_add_initial_arc initial_probs N n :
  forall a pre mid new_arcs start,
    length pre = a -> length mid = n -> N = (a + n)%nat ->
    fold_left (add_initial_arc log N initial_probs) (seq a n)
      (mkFst start (pre ++ mid ++ [mkState Flt.infinity new_arcs])) =
    mkFst start
      (pre ++ map (fun st => mkState Flt.zero (arcs st)) mid ++
       [mkState Flt.infinity
          (new_arcs ++ map (fun s => initial_arc log (default Flt.zero (initial_probs !! s)) s)
                           (seq a n))]).
Proof.
  induction n as [|n IH]; intros a pre mid new_arcs start Hpre Hmid HN.
  - destruct mid; [|done]. simpl. by rewrite app_nil_r.
  - destruct mid as [|m mid]; [done|]. simpl in Hmid.
    cbn [seq fold_left map].
    set (arc := initial_arc log (default Flt.zero (initial_probs !! a)) a).
    assert (Hstep : add_initial_arc log N initial_probs
              (mkFst start (pre ++ (m :: mid) ++ [mkState Flt.infinity new_arcs])) a =
            mkFst start ((pre ++ [mkState Flt.zero (arcs m)]) ++ mid ++
                         [mkState Flt.infinity (new_arcs ++ [arc])])).
    { unfold add_initial_arc, SetFinal, AddArc. cbn [Start states]. f_equal.
      fold arc.
      replace N with (length (pre ++ m :: mid) + 0)%nat
        by (rewrite length_app; simpl; lia).
      rewrite (app_assoc pre (m :: mid)), alter_app_r. cbn [alter list_alter].
      rewrite <- (app_assoc pre (m :: mid)).
      replace a with (length pre + 0)%nat at 1 by lia.
      rewrite alter_app_r. cbn [alter list_alter app final arcs].
      by rewrite <- app_assoc. }
    rewrite Hstep, (IH (S a)); [|rewrite length_app; simpl; lia|lia|lia].
    by rewrite <- !app_assoc.
Qed.

(** The automaton on which [RmEpsilon] is called: the states of the input,
    all made final with weight 0, and a new initial state with one arc of
    label 0 to every state. *)
Lemma add_initial_state_eq ifst initial_probs :
  NumStates ifst = length initial_probs ->
  add_initial_state log ifst initial_probs =
  mkFst (NumStates ifst)
    (map (fun st => mkState Flt.zero (arcs st)) (states ifst) ++
     [mkState Flt.infinity
        (map (fun s => initial_arc log (default Flt.zero (initial_probs !! s)) s)
             (seq 0 (NumStates ifst)))]).
Proof.
  intros Hlen. unfold add_initial_state, AddState, SetStart. rewrite <- Hlen.
  pose proof (fold_add_initial_arc initial_probs (NumStates ifst) (NumStates ifst)
                0 [] (states ifst) [] (Start ifst) eq_refl eq_refl eq_refl) as H.
  cbn [app] in H. by rewrite H.
Qed.

(** X18.  [GetNormalizationFst] fails its assertion when the automaton
    does not have one state per initial probability.  Otherwise the
    automaton handed to [RmEpsilon] and [ArcSort] has one state more, which
    is its start state, has no final weight and has one arc of label 0 and
    weight [-log(initial_prob)] to every state of the input in turn; the
    states of the input keep their arcs and are final with weight 0. *)
Theorem GetNormalizationFst_outcome ifst initial_probs :
  (NumStates ifst = length initial_probs /\
   GetNormalizationFst log RmEpsilon ArcSort ifst initial_probs =
     Ok (ArcSort (RmEpsilon (add_initial_state log ifst initial_probs))) /\
   Start (add_initial_state log ifst initial_probs) = NumStates ifst /\
   states (add_initial_state log ifst initial_probs) =
     map (fun st => mkState Flt.zero (arcs st)) (states ifst) ++
     [mkState Flt.infinity
        (map (fun s => initial_arc log (default Flt.zero (initial_probs !! s)) s)
             (seq 0 (NumStates ifst)))]) \/
  (NumStates ifst <> length initial_probs /\
   GetNormalizationFst log RmEpsilon ArcSort ifst initial_probs = AssertFailed).
Proof.
  unfold GetNormalizationFst.
  destruct (Nat.eqb_spec (NumStates ifst) (length initial_probs)) as [Heq|Hne].
  - left. rewrite (add_initial_state_eq _ _ Heq). done.
  - by right.
Qed.

(** X19.  The initial probabilities of an object that the constructor
    returned pass the assertion of [GetNormalizationFst] on the automaton
    from which the object was built. *)
Theorem GetNormalizationFst_of_graph exp fst num_pdfs g :
  DenominatorGraph exp fst num_pdfs = Ok g ->
  GetNormalizationFst log RmEpsilon ArcSort fst (initial_probs_ g) =
  Ok (ArcSort (RmEpsilon (add_initial_state log fst (initial_probs_ g)))).
Proof.
  unfold DenominatorGraph.
  destruct (SetTransitions exp fst num_pdfs) as [t| | |] eqn:Ht;
    cbv beta iota zeta delta [mbind result_bind]; [|discriminate..].
  destruct (SetInitialProbs exp fst) as [[p sp]| | |] eqn:Hp; [|discriminate..].
  intros [= <-]. cbn [initial_probs_].
  apply SetInitialProbs_Ok_inv in Hp as (Hl & _).
  unfold GetNormalizationFst. by rewrite Hl, Nat.eqb_refl.
Qed.

Lemma Arcs_add_initial_state ifst initial_probs s :
  NumStates ifst = length initial_probs ->
  Arcs (add_initial_state log ifst initial_probs) s =
  if decide (s = NumStates ifst)
  then map (fun s => initial_arc log (default Flt.zero (initial_probs !! s)) s)
           (seq 0 (NumStates ifst))
  else Arcs ifst s.
Proof.
  intros Hlen. rewrite (add_initial_state_eq _ _ Hlen). unfold Arcs, NumStates. simpl.
  destruct (decide (s = length (states ifst))) as [->|Hne].
  - rewrite lookup_app_r by by rewrite length_map.
    by rewrite length_map, Nat.sub_diag.
  - destruct (decide (s < length (states ifst))%nat) as [Hlt|Hge].
    + rewrite lookup_app_l by by rewrite length_map.
      rewrite list_lookup_fmap. by destruct (states ifst !! s).
    + rewrite (lookup_ge_None_2 (states ifst)) by lia.
      rewrite lookup_ge_None_2; [done|].
      rewrite length_app, length_map. simpl. lia.
Qed.

Lemma edge_add_initial_state ifst initial_probs s d :
  NumStates ifst = length initial_probs ->
  edge (add_initial_state log ifst initial_probs) s d <->
  edge ifst s d \/ (s = NumStates ifst /\ (d < NumStates ifst)%nat).
Proof.
  intros Hlen. unfold edge. setoid_rewrite (Arcs_add_initial_state _ _ _ Hlen).
  destruct (decide (s = NumStates ifst)) as [->|Hne].
  - split.
    + intros (a & (d' & -> & Hd')%list_elem_of_fmap & <-). right.
      apply elem_of_seq in Hd'. simpl. split; [done|lia].
    + intros [(a & Ha & _)|[_ Hd]].
      * apply elem_of_all_arcs, all_arcs_source in Ha. simpl in Ha. lia.
      * exists (initial_arc log (default Flt.zero (initial_probs !! d)) d).
        split; [|done].
        apply list_elem_of_fmap. exists d. split; [done|]. apply elem_of_seq. lia.
  - split; [by left|]. by intros [?|[? _]].
Qed.

(** X20.  In the automaton that [GetNormalizationFst] edits, when the
    input is well formed: the result is well formed, the new initial state
    has an arc to every old state and no arc leads to it, so that it is
    reached from itself only, and every old state is reached from exactly
    one state more than before. *)
Theorem add_initial_state_reach ifst initial_probs :
  fst_wf ifst ->
  NumStates ifst = length initial_probs ->
  let ofst := add_initial_state log ifst initial_probs in
  fst_wf ofst /\
  NumStates ofst = S (NumStates ifst) /\
  (forall d, (d < NumStates ifst)%nat -> edge ofst (NumStates ifst) d) /\
  NumStatesThatCanReach ofst (NumStates ifst) = Ok 1%nat /\
  forall d, (d < NumStates ifst)%nat ->
    exists n, NumStatesThatCanReach ifst d = Ok n /\
              NumStatesThatCanReach ofst d = Ok (S n).
Proof.
  intros Hwf Hlen ofst.
  assert (Hn : NumStates ofst = S (NumStates ifst)).
  { unfold ofst. rewrite (add_initial_state_eq _ _ Hlen). unfold NumStates. simpl.
    rewrite length_app, length_map. simpl. lia. }
  assert (Hedge : forall s d, edge ofst s d <->
            edge ifst s d \/ (s = NumStates ifst /\ (d < NumStates ifst)%nat))
    by (intros; by apply edge_add_initial_state).
  assert (Hdest : forall s d, edge ifst s d -> (d < NumStates ifst)%nat).
  { intros s d (a & Ha & <-). by apply (proj2 Hwf s). }
  split; [|split; [done|split; [|split]]].
  - split.
    + unfold ofst at 1. rewrite (add_initial_state_eq _ _ Hlen). simpl. lia.
    + intros s a Ha. rewrite Hn.
      assert (He : edge ofst s (nextstate a)) by by exists a.
      apply Hedge in He as [He|[_ ?]]; [apply Hdest in He|]; lia.
  - intros d Hd. apply Hedge. by right.
  - apply reach_count_no_predecessor; [lia|].
    intros s [He%Hdest|[_ ?]]%Hedge; lia.
  - intros d Hd.
    destruct (NumStatesThatCanReach_returns ifst d Hd) as (l & -> & Hnd & Hl & _).
    destruct (NumStatesThatCanReach_returns ofst d) as (l' & -> & Hnd' & Hl' & _); [lia|].
    exists (length l). split; [done|]. f_equal.
    change (S (length l)) with (length (NumStates ifst :: l)).
    apply Permutation_length, NoDup_Permutation; [done| |].
    { apply NoDup_cons. split; [|done]. intros [? _]%Hl. lia. }
    assert (Hreach : forall s, reaches ofst s d <->
              s = NumStates ifst \/ reaches ifst s d).
    { intros s. split.
      - intros Hr. unfold reaches in Hr.
        induction Hr as [x|x y z Hxy _ IH]; [right; apply rtc_refl|].
        apply Hedge in Hxy as [Hxy|[-> _]]; [|by left]. right.
        destruct (IH Hd Hl Hl') as [->|Hr].
        + apply Hdest in Hxy. lia.
        + by eapply rtc_l.
      - intros [->|Hr].
        + apply rtc_once, Hedge. by right.
        + eapply rtc_subrel; [|exact Hr]. intros x y Hxy. apply Hedge. by left. }
    intros s. rewrite Hl', elem_of_cons, Hl, Hreach, Hn. split.
    + intros [_ [->|Hr]]; [by left|right]. split; [|done].
      destruct Hr as [|x y z Hxy _]; [done|]. by eapply edge_source.
    + intros [->|[Hs Hr]]; (split; [lia|]); [by left|by right].
Qed.

End NormalizationFacts.

(** ** The further properties on concrete automata *)

Lemma SetTransitions_succeeds_iff_fst2 :
  (labels_valid fst2 1 /\ exists t, SetTransitions exp01 fst2 1 = Ok t) \/
  (~ labels_valid fst2 1 /\ SetTransitions exp01 fst2 1 = AssertFailed).
Proof.
  apply (SetTransitions_succeeds_iff exp01 fst2 1).
  apply fst_wfb_sound. reflexivity.
Defined.

Lemma SetTransitions_record_count_fst2 :
  exists t, SetTransitions exp01 fst2 1 = Ok t /\
    length (forward_transitions_ t) = NumStates fst2 /\
    length (backward_transitions_ t) = NumStates fst2 /\
    length (transitions_ t) = (2 * num_arcs fst2)%nat /\
    range_total (forward_transitions_ t) = Z.of_nat (num_arcs fst2) /\
    range_total (backward_transitions_ t) = Z.of_nat (num_arcs fst2).
Proof.
  eexists. split; [vm_compute; reflexivity|].
  apply (SetTransitions_record_count exp01 fst2 1).
  - apply fst_wfb_sound. reflexivity.
  - apply Z.leb_le. reflexivity.
  - vm_compute. reflexivity.
Defined.

Lemma SetTransitions_records_in_range_fst2 :
  0 <= pdf_id (forward_record exp01 (arc_to 1 1)) < 1 /\
  (hmm_state (forward_record exp01 (arc_to 1 1)) < NumStates fst2)%nat.
Proof.
  eapply (SetTransitions_records_in_range exp01 fst2 1).
  - apply fst_wfb_sound. reflexivity.
  - vm_compute. reflexivity.
  - apply list_elem_of_here.
Defined.

Lemma SetTransitions_offsets_in_bounds_fst2 :
  exists t, SetTransitions exp01 fst2 1 = Ok t /\
    (forall r, r ∈ forward_transitions_ t ->
       0 <= r.1 /\ r.1 <= r.2 /\ r.2 <= Z.of_nat (num_arcs fst2)) /\
    (forall r, r ∈ backward_transitions_ t ->
       Z.of_nat (num_arcs fst2) <= r.1 /\ r.1 <= r.2 /\
       r.2 <= Z.of_nat (length (transitions_ t))).
Proof.
  apply (SetTransitions_offsets_in_bounds exp01 fst2 1).
  - apply fst_wfb_sound. reflexivity.
  - apply labels_validb_sound. reflexivity.
  - apply Z.leb_le. reflexivity.
Defined.

Lemma SetTransitions_mirror_fst2 :
  exists t, SetTransitions exp01 fst2 1 = Ok t /\
    (forall s rf tr,
       forward_transitions_ t !! s = Some rf ->
       tr ∈ slice rf (transitions_ t) ->
       exists rb, backward_transitions_ t !! hmm_state tr = Some rb /\
                  with_state tr s ∈ slice rb (transitions_ t)) /\
    (forall d rb tr,
       backward_transitions_ t !! d = Some rb ->
       tr ∈ slice rb (transitions_ t) ->
       exists rf, forward_transitions_ t !! hmm_state tr = Some rf /\
                  with_state tr d ∈ slice rf (transitions_ t)).
Proof.
  apply (SetTransitions_mirror exp01 fst2 1).
  - apply fst_wfb_sound. reflexivity.
  - apply labels_validb_sound. reflexivity.
  - apply Z.leb_le. reflexivity.
Defined.

Lemma NumStatesThatCanReach_shape_fst2 :
  NumStatesThatCanReach fst2 1 = NumStatesThatCanReach fst2_other 1.
Proof. apply (NumStatesThatCanReach_shape fst2 fst2_other 1). reflexivity. Defined.

Lemma NumStatesThatCanReach_monotone_fst2 :
  exists n n', NumStatesThatCanReach fst2 0 = Ok n /\
               NumStatesThatCanReach fst2 1 = Ok n' /\
               (n <= n')%nat /\
               (reaches fst2 1 0 -> n = n').
Proof.
  apply (NumStatesThatCanReach_monotone fst2 0 1).
  - apply fst_wfb_sound. reflexivity.
  - vm_compute. lia.
  - apply rtc_once. exists (arc_to 1 1). split; [apply list_elem_of_here|reflexivity].
Defined.

Lemma NumStatesThatCanReach_no_predecessor_fst2 :
  NumStatesThatCanReach fst2 0 = Ok 1%nat.
Proof.
  apply (NumStatesThatCanReach_no_predecessor fst2 0).
  - apply fst_wfb_sound. reflexivity.
  - vm_compute. lia.
  - intros s Hs. apply predecessors_spec in Hs; [|vm_compute; lia].
    vm_compute in Hs. by apply elem_of_nil in Hs.
Defined.

Lemma ComputeSpecialState_outcome_fst2 :
  (ComputeSpecialState fst2 [Flt.zero; one_f] = KaldiErr /\
   forall c, c ∈ scanned [Flt.zero; one_f] ->
     exists n, NumStatesThatCanReach fst2 c = Ok n /\
               (n < min_states_can_reach (NumStates fst2))%nat) \/
  (exists rejected state rest n,
     scanned [Flt.zero; one_f] = rejected ++ state :: rest /\
     ComputeSpecialState fst2 [Flt.zero; one_f] = Ok state /\
     (state < NumStates fst2)%nat /\
     NumStatesThatCanReach fst2 state = Ok n /\
     (min_states_can_reach (NumStates fst2) <= n)%nat /\
     forall c, c ∈ rejected ->
       exists m, NumStatesThatCanReach fst2 c = Ok m /\
                 (m < min_states_can_reach (NumStates fst2))%nat).
Proof.
  apply (ComputeSpecialState_outcome fst2 [Flt.zero; one_f]).
  - apply fst_wfb_sound. reflexivity.
  - repeat constructor.
  - reflexivity.
Defined.

Lemma cycle2_strongly_connected : strongly_connected cycle2.
Proof.
  assert (H01 : edge cycle2 0 1).
  { exists (arc_to 1 1). split; [apply list_elem_of_here|reflexivity]. }
  assert (H10 : edge cycle2 1 0).
  { exists (arc_to 1 0). split; [apply list_elem_of_here|reflexivity]. }
  intros s d Hs Hd. change (NumStates cycle2) with 2%nat in *.
  destruct s as [|[|s]], d as [|[|d]]; try lia;
    [apply rtc_refl | by apply rtc_once | by apply rtc_once | apply rtc_refl].
Qed.

Lemma ComputeSpecialState_strongly_connected_cycle2 :
  exists state rest,
    scanned [one_f; one_f] = state :: rest /\
    ComputeSpecialState cycle2 [one_f; one_f] = Ok state.
Proof.
  apply (ComputeSpecialState_strongly_connected cycle2 [one_f; one_f]).
  - apply fst_wfb_sound. reflexivity.
  - repeat constructor.
  - exact cycle2_strongly_connected.
  - reflexivity.
  - vm_compute. lia.
Defined.

Lemma ComputeSpecialState_positive_probs_cycle2 :
  scanned [one_f; one_f] = ranked_states [one_f; one_f] /\
  ComputeSpecialState cycle2 [one_f; one_f] = select_by_rank cycle2 [one_f; one_f].
Proof.
  apply (ComputeSpecialState_positive_probs cycle2 [one_f; one_f]).
  repeat constructor.
Defined.

Lemma SetInitialProbs_postcondition_fst2 :
  length [Flt.zero; one_f] = NumStates fst2 /\
  (1 < NumStates fst2)%nat /\
  (forall s, (s < NumStates fst2)%nat -> mass_ok (tot_prob exp01 fst2 s) = true) /\
  exists n, NumStatesThatCanReach fst2 1 = Ok n /\
            (min_states_can_reach (NumStates fst2) <= n)%nat.
Proof.
  apply (SetInitialProbs_postcondition exp01 fst2 [Flt.zero; one_f] 1).
  vm_compute. reflexivity.
Defined.

Lemma DenominatorGraph_invariant_fst2 :
  exists g, DenominatorGraph exp01 fst2 1 = Ok g /\
    length (forward_transitions_ (tables g)) = NumStates fst2 /\
    length (backward_transitions_ (tables g)) = NumStates fst2 /\
    length (initial_probs_ g) = NumStates fst2 /\
    (special_hmm_state_ g < NumStates fst2)%nat /\
    labels_valid fst2 1.
Proof.
  eexists. split; [vm_compute; reflexivity|].
  apply (DenominatorGraph_invariant exp01 fst2 1). vm_compute. reflexivity.
Defined.

Lemma MapFstToPdfIdsPlusOne_preserves_tid_fst :
  NumStates (relabel tid_pdf tid_fst) = NumStates tid_fst /\
  Start (relabel tid_pdf tid_fst) = Start tid_fst /\
  (forall s, Final (relabel tid_pdf tid_fst) s = Final tid_fst s) /\
  (forall s i a', Arcs (relabel tid_pdf tid_fst) s !! i = Some a' ->
     exists a, Arcs tid_fst s !! i = Some a /\
       weight a' = weight a /\ nextstate a' = nextstate a /\
       ilabel a' = olabel a' /\
       ilabel a' = if 0 <? ilabel a then tid_pdf (ilabel a) + 1 else ilabel a) /\
  (forall s, length (Arcs (relabel tid_pdf tid_fst) s) = length (Arcs tid_fst s)) /\
  acceptor (relabel tid_pdf tid_fst) /\
  (fst_wf tid_fst -> fst_wf (relabel tid_pdf tid_fst)) /\
  (forall d, NumStatesThatCanReach (relabel tid_pdf tid_fst) d =
             NumStatesThatCanReach tid_fst d).
Proof.
  apply (MapFstToPdfIdsPlusOne_preserves tid_pdf tid_fst). reflexivity.
Defined.

Lemma acceptorb_sound fst : acceptorb fst = true -> acceptor fst.
Proof.
  unfold acceptorb. intros H s a Ha.
  apply elem_of_all_arcs, list_elem_of_In in Ha.
  rewrite forallb_forall in H. by apply Z.eqb_eq, (H (s, a)).
Qed.

Lemma tid_fst_pdfs s a :
  a ∈ Arcs tid_fst s -> 0 < ilabel a /\ 0 <= tid_pdf (ilabel a) < 2.
Proof.
  intros Ha%elem_of_all_arcs.
  assert (H : forallb (fun x : nat * StdArc =>
                (0 <? ilabel x.2) && (0 <=? tid_pdf (ilabel x.2)) &&
                (tid_pdf (ilabel x.2) <? 2)) (all_arcs tid_fst) = true) by reflexivity.
  rewrite forallb_forall in H. apply list_elem_of_In, H in Ha. simpl in Ha. lia.
Qed.

Lemma MapFstToPdfIdsPlusOne_SetTransitions_tid_fst :
  exists fst' t,
    MapFstToPdfIdsPlusOne tid_pdf tid_fst = Ok fst' /\
    SetTransitions exp01 fst' 2 = Ok t /\
    forall s, (s < NumStates tid_fst)%nat ->
      exists rf, forward_transitions_ t !! s = Some rf /\
        slice rf (transitions_ t) =
        map (fun a => {| transition_prob := Flt.to_single (exp01 (Flt.opp (weight a)));
                         pdf_id := tid_pdf (ilabel a);
                         hmm_state := nextstate a |}) (Arcs tid_fst s).
Proof.
  apply (MapFstToPdfIdsPlusOne_SetTransitions tid_pdf exp01 tid_fst 2).
  - apply fst_wfb_sound. reflexivity.
  - apply acceptorb_sound. reflexivity.
  - exact tid_fst_pdfs.
  - apply Z.leb_le. reflexivity.
Defined.

Lemma GetNormalizationFst_of_graph_fst2 :
  exists g, DenominatorGraph exp01 fst2 1 = Ok g /\
    GetNormalizationFst log01 (fun f => f) (fun f => f) fst2 (initial_probs_ g) =
    Ok (add_initial_state log01 fst2 (initial_probs_ g)).
Proof.
  eexists. split; [vm_compute; reflexivity|].
  apply (GetNormalizationFst_of_graph log01 (fun f => f) (fun f => f) exp01 fst2 1).
  vm_compute. reflexivity.
Defined.

Lemma add_initial_state_reach_fst2 :
  let ofst := add_initial_state log01 fst2 [Flt.zero; one_f] in
  fst_wf ofst /\
  NumStates ofst = S (NumStates fst2) /\
  (forall d, (d < NumStates fst2)%nat -> edge ofst (NumStates fst2) d) /\
  NumStatesThatCanReach ofst (NumStates fst2) = Ok 1%nat /\
  forall d, (d < NumStates fst2)%nat ->
    exists n, NumStatesThatCanReach fst2 d = Ok n /\
              NumStatesThatCanReach ofst d = Ok (S n).
Proof.
  apply (add_initial_state_reach log01 fst2 [Flt.zero; one_f]).
  - apply fst_wfb_sound. reflexivity.
  - reflexivity.
Defined.
